(** * wrapt decorators: a shallow embedding of [src/decorators.py]

    The module builds decorators out of a user supplied wrapper function.
    The embedding follows the Python text: dictionaries are [gmap string],
    the set of received names is a [gset string], exceptions are values of
    [exn] threaded through an error monad, and the two dictionaries that
    outlive a call ([default_params], captured by the [_partial] closure, and
    [complete_params], handed to every [FunctionWrapper]) live in an explicit
    store so that sharing between calls is visible. *)

From stdpp Require Import gmap strings list fin_maps.
From Stdlib Require Import ZArith.

Local Open Scope string_scope.
Local Open Scope list_scope.

(** ** Python values and objects *)

(** The values a decorator parameter or an attribute can hold.  [VOther]
    stands for any other object, identified by its [repr]. *)
Inductive pyval :=
  | VNone
  | VInt (n : Z)
  | VStr (s : string)
  | VOther (repr : string).

(** An object as this module sees it: the attributes [getattr] finds on it,
    its instance [__dict__], for a function the positional parameter names
    [inspect.getargspec(f).args] reports, and its truth value [bool(o)], the
    one an [if o:] tests.  A function is true; an instance of a class whose
    [__bool__] returns [False], or whose [__len__] returns 0, is not. *)
Record pyobj := PyObj {
  obj_attrs : gmap string pyval;
  obj_dict : gmap string pyval;
  obj_args : list string;
  obj_true : bool
}.

(** ** Exceptions *)

(** The three messages [_partial] formats for [UnexpectedParameters]. *)
Inductive unexpected_reason :=
  | TooManyPositional (expected received : nat)
  | UnknownKeywords (names : list string)
  | PositionalAlsoKeyword (name : string).

(** A reference to a dictionary of the store. *)
Definition loc := positive.

(** The exceptions of [exceptions.py] and those the interpreter raises for
    a missing attribute or an index out of range.  [InvalidReference] is the
    read of a location that holds no dictionary; a closure built by
    [decorator] never meets it. *)
Inductive exn :=
  | MissingDefaultParameter (name : string) (decorator_name : pyval)
  | UnexpectedDefaultParameters (names : list string) (decorator_name : pyval)
  | UnexpectedParameters (reason : unexpected_reason) (decorator_name : pyval)
  | AttributeError (attr : string)
  | IndexError
  | InvalidReference (l : loc).

Inductive result (A : Type) :=
  | Ok (a : A)
  | Raise (e : exn).
Arguments Ok {A} a.
Arguments Raise {A} e.

#[global] Instance result_ret : MRet result := λ A a, Ok a.
#[global] Instance result_bind : MBind result := λ A B f r,
  match r with
  | Ok a => f a
  | Raise e => Raise e
  end.

(** ** The store of dictionaries and the monad of the module *)

Abbreviation dict := (gmap string pyval).
Abbreviation heap := (gmap loc (gmap string pyval)).

Definition M (A : Type) : Type := heap → result A * heap.

#[global] Instance M_ret : MRet M := λ A a h, (Ok a, h).
#[global] Instance M_bind : MBind M := λ A B f m h,
  match m h with
  | (Ok a, h') => f a h'
  | (Raise e, h') => (Raise e, h')
  end.

Definition raise {A} (e : exn) : M A := λ h, (Raise e, h).

Definition lift {A} (r : result A) : M A := λ h, (r, h).

(** [dict(d)] and [**kwargs] capture: a new dictionary object. *)
Definition alloc (d : dict) : M loc := λ h,
  let l := fresh (dom h) in (Ok l, <[l := d]> h).

Definition load (l : loc) : M dict := λ h,
  match h !! l with
  | Some d => (Ok d, h)
  | None => (Raise (InvalidReference l), h)
  end.

(** [d.update(other)]: the entries of [other] win. *)
Definition dict_update (l : loc) (other : dict) : M unit := λ h,
  match h !! l with
  | Some d => (Ok tt, <[l := other ∪ d]> h)
  | None => (Raise (InvalidReference l), h)
  end.

(** ** Attribute access *)

Definition getattr (o : pyobj) (attr : string) : result pyval :=
  match obj_attrs o !! attr with
  | Some value => Ok value
  | None => Raise (AttributeError attr)
  end.

(** The keys of a dictionary in iteration order. *)
Definition keys (d : dict) : list string := (map_to_list d).*1.

(** ** The wrapper construct *)

(** What [FunctionWrapper(wrapped=…, wrapper=…, params=…)] returns.  [params]
    is a reference: every construct made by one inner [_wrapper] shares the
    same [complete_params] dictionary. *)
Record WrapperConstruct := Construct {
  fw_wrapped : pyobj;
  fw_wrapper : pyobj;
  fw_params : option loc;
  fw_attrs : gmap string pyval
}.

(** Modelled from the spec: the class [FunctionWrapper] of [wrappers.py] is
    not part of the sources at hand.  The construct owns the wrapped
    function, the behavior and the parameter set, and its identity
    attributes are first those established by the wrapping relationship,
    that is, the ones of the wrapped function. *)
Definition FunctionWrapper (wrapped wrapper : pyobj) (params : option loc)
  : WrapperConstruct :=
  {| fw_wrapped := wrapped; fw_wrapper := wrapper; fw_params := params;
     fw_attrs := obj_attrs wrapped |}.

Definition setattr (w : WrapperConstruct) (attr : string) (value : pyval)
  : WrapperConstruct :=
  {| fw_wrapped := fw_wrapped w; fw_wrapper := fw_wrapper w;
     fw_params := fw_params w; fw_attrs := <[attr := value]> (fw_attrs w) |}.

Definition ADAPTER_ATTRS : list string :=
  ["__module__"; "__name__"; "__qualname__"].

(** [_update_adapter]: [getattr] raises nothing but [AttributeError], which
    the loop swallows. *)
Definition _update_adapter (wrapper : WrapperConstruct) (target : pyobj)
  : WrapperConstruct :=
  foldl (λ wrapper attr,
           match getattr target attr with
           | Raise _ => wrapper
           | Ok value => setattr wrapper attr value
           end) wrapper ADAPTER_ATTRS.

(** ** [functools.wraps] *)

Definition WRAPPER_ASSIGNMENTS : list string :=
  ["__module__"; "__name__"; "__qualname__"; "__doc__"; "__annotations__"].

(** [functools.update_wrapper(wrapper, wrapped)] of the Python 3 standard
    library: every attribute of [WRAPPER_ASSIGNMENTS] the wrapped function
    has is assigned to the wrapper, and the wrapper's [__dict__] is updated
    with the one of the wrapped function.  The last step,
    [wrapper.__wrapped__ = wrapped], adds nothing here: each closure below
    keeps the behavior it was made from in its own [wrapper] field. *)
Definition update_wrapper (wrapper wrapped : pyobj) : pyobj :=
  {| obj_attrs :=
       foldl (λ attrs attr,
                match getattr wrapped attr with
                | Raise _ => attrs
                | Ok value => <[attr := value]> attrs
                end) (obj_attrs wrapper) WRAPPER_ASSIGNMENTS;
     obj_dict := obj_dict wrapped ∪ obj_dict wrapper;
     obj_args := obj_args wrapper;
     obj_true := obj_true wrapper |}.

(** [@wraps(wrapped)] applied to the function that follows it. *)
Definition wraps (wrapped : pyobj) (f : pyobj) : pyobj :=
  update_wrapper f wrapped.

(** The module is installed as [wrapt.decorators]. *)
Definition MODULE_NAME : string := "wrapt.decorators".

(** A function object as a nested [def] inside [decorator] creates it. *)
Definition local_function (name : string) (args : list string) : pyobj :=
  {| obj_attrs :=
       {[ "__module__" := VStr MODULE_NAME;
          "__name__" := VStr name;
          "__qualname__" := VStr ("decorator.<locals>." +:+ name);
          "__doc__" := VNone;
          "__annotations__" := VOther "{}" ]};
     obj_dict := ∅;
     obj_args := args;
     obj_true := true |}.

(** ** The closures [decorator] returns *)

(** The inner [_wrapper] of a parameterized decorator (line 135), with the
    variables it closes over. *)
Record InnerWrapper := MkInner {
  in_wrapper : pyobj;
  in_target : option pyobj;
  in_complete_params : loc
}.

(** The [_partial] closure (line 91). *)
Record PartialClosure := MkPartial {
  pc_function : pyobj;
  pc_wrapper : pyobj;
  pc_target : option pyobj;
  pc_expected_names : list string;
  pc_default_params : loc
}.

(** The [_wrapper] closure of a decorator without parameters (line 153). *)
Record WrapperClosure := MkWrapper {
  wc_function : pyobj;
  wc_wrapper : pyobj;
  wc_target : option pyobj
}.

(** [functools.partial(decorator, target=target, **default_params)]: the
    keyword arguments it freezes. *)
Record DeferredBuilder := MkDeferred {
  db_target : option pyobj;
  db_default_params : dict
}.

Inductive Decorator :=
  | Parameterized (c : PartialClosure)
  | Direct (c : WrapperClosure)
  | Deferred (p : DeferredBuilder).

(** ** [decorator] *)

Definition WRAPPER_ARGLIST : list string :=
  ["wrapped"; "instance"; "args"; "kwargs"].

(** The loop of lines 65-71 over [expected_names]; [received_names] is the
    set it shrinks, and the [KeyError] of [set.remove] becomes
    [MissingDefaultParameter]. *)
Fixpoint match_expected_names (wrapper : pyobj) (expected_names : list string)
    (received_names : gset string) : result (gset string) :=
  match expected_names with
  | [] => Ok received_names
  | name :: rest =>
      if decide (name ∈ received_names)
      then match_expected_names wrapper rest (received_names ∖ {[name]})
      else
        wrapper_name ← getattr wrapper "__name__";
        Raise (MissingDefaultParameter name wrapper_name)
  end.

(** [decorator(wrapper=None, target=None, **default_params)].  The target is
    only stored here; the two [_wrapper] functions below test it. *)
Definition decorator (wrapper : option pyobj) (target : option pyobj)
    (default_params : dict) : M Decorator :=
  match wrapper with
  | Some wrapper =>
      let expected_arglist := WRAPPER_ARGLIST in
      let complete_arglist := obj_args wrapper in
      let received_names := dom default_params in
      let expected_names := drop (length expected_arglist) complete_arglist in
      received_names ←
        lift (match_expected_names wrapper expected_names received_names);
      if decide (received_names ≠ ∅) then
        wrapper_name ← lift (getattr wrapper "__name__");
        raise (UnexpectedDefaultParameters (elements received_names)
                 wrapper_name)
      else if decide (length expected_arglist < length complete_arglist) then
        default_params ← alloc default_params;
        mret (Parameterized
                {| pc_function := wraps wrapper (local_function "_partial" []);
                   pc_wrapper := wrapper;
                   pc_target := target;
                   pc_expected_names := expected_names;
                   pc_default_params := default_params |})
      else
        mret (Direct
                {| wc_function :=
                     wraps wrapper (local_function "_wrapper" ["func"]);
                   wc_wrapper := wrapper;
                   wc_target := target |})
  | None =>
      mret (Deferred
              {| db_target := target; db_default_params := default_params |})
  end.

(** Calling the [functools.partial] object: positional arguments are passed
    on, call-site keywords override the frozen ones.  [kw_target] is the
    [target] keyword of the call when there is one. *)
Definition call_deferred (p : DeferredBuilder) (wrapper : option pyobj)
    (kw_target : option (option pyobj)) (kwargs : dict) : M Decorator :=
  decorator wrapper (default (db_target p) kw_target)
    (kwargs ∪ db_default_params p).

(** ** Applying the decorators *)

(** The loop of lines 122-128: [enumerate(decorator_args)] from index [i],
    inserting into [decorator_kwargs]. *)
Fixpoint bind_positional (wrapper : pyobj) (expected_names : list string)
    (i : nat) (decorator_args : list pyval) (decorator_kwargs : dict)
  : result dict :=
  match decorator_args with
  | [] => Ok decorator_kwargs
  | arg :: rest =>
      match expected_names !! i with
      | None => Raise IndexError
      | Some name =>
          if decide (name ∈ dom decorator_kwargs) then
            wrapper_name ← getattr wrapper "__name__";
            Raise (UnexpectedParameters (PositionalAlsoKeyword name)
                     wrapper_name)
          else
            bind_positional wrapper expected_names (S i) rest
              (<[name := arg]> decorator_kwargs)
      end
  end.

Module ParameterizedDecorator.

(** The inner [_wrapper(func)] (lines 135-140).  [if target:] is false for
    [None] and for a target whose truth value is false. *)
Definition _wrapper (c : InnerWrapper) (func : pyobj) : WrapperConstruct :=
  let result :=
    FunctionWrapper func (in_wrapper c) (Some (in_complete_params c)) in
  match in_target c with
  | Some target =>
      if obj_true target then _update_adapter result target else result
  | None => result
  end.

(** [_partial], called with positional arguments [decorator_args] and
    keyword arguments [decorator_kwargs] (lines 91-141). *)
Definition _partial (c : PartialClosure) (decorator_args : list pyval)
    (decorator_kwargs : dict) : M InnerWrapper :=
  let wrapper := pc_wrapper c in
  let expected_names := pc_expected_names c in
  if decide (length expected_names < length decorator_args) then
    wrapper_name ← lift (getattr wrapper "__name__");
    raise (UnexpectedParameters
             (TooManyPositional (length expected_names)
                (length decorator_args)) wrapper_name)
  else
    default_params ← load (pc_default_params c);
    let unexpected_params :=
      filter (λ name, name ∉ dom default_params) (keys decorator_kwargs) in
    if decide (unexpected_params ≠ []) then
      wrapper_name ← lift (getattr wrapper "__name__");
      raise (UnexpectedParameters (UnknownKeywords unexpected_params)
               wrapper_name)
    else
      complete_params ← alloc default_params;
      decorator_kwargs ←
        lift (bind_positional wrapper expected_names 0 decorator_args
                decorator_kwargs);
      dict_update complete_params decorator_kwargs;;
      mret {| in_wrapper := wrapper; in_target := pc_target c;
              in_complete_params := complete_params |}.

End ParameterizedDecorator.

Module DirectDecorator.

(** [_wrapper(func)] (lines 153-157): no [params] are passed.  [if target:]
    is false for [None] and for a target whose truth value is false. *)
Definition _wrapper (c : WrapperClosure) (func : pyobj) : WrapperConstruct :=
  let result := FunctionWrapper func (wc_wrapper c) None in
  match wc_target c with
  | Some target =>
      if obj_true target then _update_adapter result target else result
  | None => result
  end.

End DirectDecorator.

(** ** A small example: two parameters [a] and [b] *)

Definition behavior_ab : pyobj :=
  {| obj_attrs :=
       {[ "__module__" := VStr "__main__";
          "__name__" := VStr "behavior_ab";
          "__qualname__" := VStr "behavior_ab";
          "__doc__" := VNone;
          "__annotations__" := VOther "{}" ]};
     obj_dict := ∅;
     obj_args := ["wrapped"; "instance"; "args"; "kwargs"; "a"; "b"];
     obj_true := true |}.

Definition defaults_ab : dict := {[ "a" := VInt 1; "b" := VInt 2 ]}.

(** A behavior that declares only two of the four fixed parameters. *)
Definition behavior_short : pyobj :=
  {| obj_attrs :=
       {[ "__module__" := VStr "__main__";
          "__name__" := VStr "behavior_short";
          "__qualname__" := VStr "behavior_short";
          "__doc__" := VNone;
          "__annotations__" := VOther "{}" ]};
     obj_dict := ∅;
     obj_args := ["wrapped"; "instance"];
     obj_true := true |}.

(** An adapter target and a function to decorate. *)
Definition prototype : pyobj :=
  {| obj_attrs :=
       {[ "__module__" := VStr "__main__";
          "__name__" := VStr "prototype";
          "__qualname__" := VStr "prototype";
          "__doc__" := VNone;
          "__annotations__" := VOther "{}" ]};
     obj_dict := ∅;
     obj_args := ["x"; "y"];
     obj_true := true |}.

Definition function : pyobj :=
  {| obj_attrs :=
       {[ "__module__" := VStr "__main__";
          "__name__" := VStr "function";
          "__qualname__" := VStr "function";
          "__doc__" := VNone;
          "__annotations__" := VOther "{}" ]};
     obj_dict := ∅;
     obj_args := [];
     obj_true := true |}.



(** The decorator [decorator(behavior_ab, a=1, b=2)] builds in an empty
    store. *)
Definition partial_ab : PartialClosure :=
  {| pc_function := wraps behavior_ab (local_function "_partial" []);
     pc_wrapper := behavior_ab;
     pc_target := None;
     pc_expected_names := ["a"; "b"];
     pc_default_params := 1%positive |}.


(** The complete parameter set an application of [_partial] hands to the
    constructs: the contents of the dictionary the inner [_wrapper] holds. *)
Definition complete_parameter_set (c : PartialClosure)
    (decorator_args : list pyval) (decorator_kwargs : dict) : M dict :=
  inner ← ParameterizedDecorator._partial c decorator_args decorator_kwargs;
  load (in_complete_params inner).

(** The names a behavior declares after the four fixed ones. *)
Definition extra_names (wrapper : pyobj) : list string :=
  drop (length WRAPPER_ARGLIST) (obj_args wrapper).

(** The function object of a generated decorator; the deferred builder is a
    [functools.partial] object, not a function. *)
Definition decorator_function (d : Decorator) : option pyobj :=
  match d with
  | Parameterized c => Some (pc_function c)
  | Direct c => Some (wc_function c)
  | Deferred _ => None
  end.

(** A run of applications of one parameterized decorator, each one starting
    in the store the previous one left, whether it raised or not. *)
Definition run_applications (c : PartialClosure)
    (apps : list (list pyval * dict)) (h : heap) : heap :=
  foldl (λ h app, (ParameterizedDecorator._partial c app.1 app.2 h).2) h apps.

(** ** Views used by the statements *)

(** The keyword names [_partial] rejects against the defaults [dp]. *)
Definition unexpected_keywords (dp kwargs : dict) : list string :=
  filter (λ name, name ∉ dom dp) (keys kwargs).

(** No positional argument of index [i], ..., [i + n - 1] is bound to a name
    that is a key of [kwargs]. *)
Definition no_collision (expected_names : list string) (i n : nat)
    (kwargs : dict) : Prop :=
  ∀ j name, (i ≤ j < i + n)%nat → expected_names !! j = Some name →
            name ∉ dom kwargs.

(** What an application of [_partial] computes from the contents [dp] of the
    [default_params] dictionary: the exception it raises or the contents of
    the complete parameter set. *)
Definition merged_parameters (c : PartialClosure) (dp : dict)
    (decorator_args : list pyval) (decorator_kwargs : dict) : result dict :=
  if decide (length (pc_expected_names c) < length decorator_args) then
    wrapper_name ← getattr (pc_wrapper c) "__name__";
    Raise (UnexpectedParameters
             (TooManyPositional (length (pc_expected_names c))
                (length decorator_args)) wrapper_name)
  else if decide (unexpected_keywords dp decorator_kwargs ≠ []) then
    wrapper_name ← getattr (pc_wrapper c) "__name__";
    Raise (UnexpectedParameters
             (UnknownKeywords (unexpected_keywords dp decorator_kwargs))
             wrapper_name)
  else
    supplied ← bind_positional (pc_wrapper c) (pc_expected_names c) 0
                 decorator_args decorator_kwargs;
    Ok (supplied ∪ dp).

(** The three ways an application can supply its parameters wrongly. *)
Definition too_many_positional (c : PartialClosure) (args : list pyval)
  : Prop :=
  length (pc_expected_names c) < length args.

Definition unknown_keyword (dp kwargs : dict) : Prop :=
  ∃ k, k ∈ dom kwargs ∧ k ∉ dom dp.

Definition supplied_both_ways (c : PartialClosure) (args : list pyval)
    (kwargs : dict) : Prop :=
  ∃ i name, (i < length args)%nat ∧ pc_expected_names c !! i = Some name ∧
            name ∈ dom kwargs.

(** ** The rest of the module *)

(** A function object passed where a decorator parameter is expected: one
    more object among the values, known by the name its [repr] shows. *)
Definition function_value (func : pyobj) : pyval :=
  VOther match obj_attrs func !! "__qualname__" with
         | Some (VStr name) => "<function " +:+ name +:+ ">"
         | _ => "<function>"
         end.

(** What calling the result of [decorator] with one function gives: the
    [functools.partial] object hands the function to [decorator], [_partial]
    takes it for its first positional argument, [_wrapper] wraps it. *)
Inductive Applied :=
  | AppliedBuilder (d : Decorator)
  | AppliedPartial (inner : InnerWrapper)
  | AppliedWrapper (construct : WrapperConstruct).

(** [d(func)], which is what [@d] written above [def func] evaluates. *)
Definition apply_decorator (d : Decorator) (func : pyobj) : M Applied :=
  match d with
  | Deferred p =>
      built ← call_deferred p (Some func) None ∅;
      mret (AppliedBuilder built)
  | Parameterized c =>
      inner ← ParameterizedDecorator._partial c [function_value func] ∅;
      mret (AppliedPartial inner)
  | Direct c => mret (AppliedWrapper (DirectDecorator._wrapper c func))
  end.

(** The function [wrapper] that [adapter] defines (lines 171-172). *)
Definition adapter_wrapper : pyobj :=
  {| obj_attrs :=
       {[ "__module__" := VStr MODULE_NAME;
          "__name__" := VStr "wrapper";
          "__qualname__" := VStr "adapter.<locals>.wrapper";
          "__doc__" := VNone;
          "__annotations__" := VOther "{}" ]};
     obj_dict := ∅;
     obj_args := ["wrapped"; "instance"; "args"; "kwargs"];
     obj_true := true |}.

(** [adapter(target)] (lines 169-173): [decorator(target=target)] applied to
    [wrapper]. *)
Definition adapter (target : pyobj) : M Applied :=
  builder ← decorator None (Some target) ∅;
  apply_decorator builder adapter_wrapper.

(** The calls of the module that touch the store, and a run of them, each
    one starting in the store the previous one left. *)
Inductive action :=
  | Build (wrapper target : option pyobj) (default_params : dict)
  | Apply (c : PartialClosure) (decorator_args : list pyval)
      (decorator_kwargs : dict).

Definition perform (a : action) (h : heap) : heap :=
  match a with
  | Build wrapper target default_params =>
      (decorator wrapper target default_params h).2
  | Apply c decorator_args decorator_kwargs =>
      (ParameterizedDecorator._partial c decorator_args decorator_kwargs h).2
  end.

Definition run (actions : list action) (h : heap) : heap :=
  foldl (λ h a, perform a h) h actions.

(** * Lemmas on the embedding *)

(** Unfolds the plumbing of the two monads. *)
Ltac unfold_monad :=
  unfold mbind, mret, M_bind, M_ret, result_bind, result_ret, lift, raise,
    alloc, load, dict_update;
  cbn beta iota.

(** ** The validation loop *)

Section validation.
Context (wrapper : pyobj).

Lemma match_expected_names_ok names (received : gset string) :
  NoDup names →
  (∀ n, n ∈ names → n ∈ received) →
  match_expected_names wrapper names received
  = Ok (received ∖ list_to_set names).
Proof.
  intros Hnd. revert received.
  induction Hnd as [|n rest Hn Hnd IH]; intros received Hin; simpl.
  - f_equal. set_solver.
  - rewrite decide_True by (apply Hin; left).
    rewrite IH.
    + f_equal. set_solver.
    + intros m Hm. apply elem_of_difference. split.
      * apply Hin. by right.
      * intros ->%elem_of_singleton. done.
Qed.

Lemma match_expected_names_missing pre n post (received : gset string)
    wrapper_name :
  NoDup pre →
  (∀ x, x ∈ pre → x ∈ received) →
  n ∉ received →
  getattr wrapper "__name__" = Ok wrapper_name →
  match_expected_names wrapper (pre ++ n :: post) received
  = Raise (MissingDefaultParameter n wrapper_name).
Proof.
  intros Hnd. revert received.
  induction Hnd as [|x pre Hx Hnd IH]; intros received Hin Hn Hname; simpl.
  - rewrite decide_False by done. by rewrite Hname.
  - rewrite decide_True by (apply Hin; left).
    apply IH; [|set_solver|done].
    intros y Hy. apply elem_of_difference. split.
    + apply Hin. by right.
    + intros ->%elem_of_singleton. done.
Qed.

Lemma match_expected_names_absent names (received : gset string) n
    wrapper_name :
  n ∈ names →
  n ∉ received →
  getattr wrapper "__name__" = Ok wrapper_name →
  ∃ missing,
    missing ∈ names ∧
    match_expected_names wrapper names received
    = Raise (MissingDefaultParameter missing wrapper_name).
Proof.
  intros Hin Hout Hname. revert received Hout.
  induction names as [|x rest IH]; intros received Hout; simpl.
  - by apply elem_of_nil in Hin.
  - destruct (decide (x ∈ received)) as [Hx|Hx].
    + destruct (IH) with (received := received ∖ {[x]})
        as (missing & Hmissing & ->).
      * apply elem_of_cons in Hin as [->|?]; [contradiction|done].
      * set_solver.
      * exists missing. split; [by right|done].
    + exists x. split; [by left|]. by rewrite Hname.
Qed.

Lemma match_expected_names_Ok_inv names (received remaining : gset string) :
  match_expected_names wrapper names received = Ok remaining →
  NoDup names ∧ (∀ n, n ∈ names → n ∈ received) ∧
  remaining = received ∖ list_to_set names.
Proof.
  revert received.
  induction names as [|n rest IH]; intros received; simpl.
  - intros [= <-]. split_and!; [constructor|set_solver|set_solver].
  - destruct (decide (n ∈ received)) as [Hn|Hn].
    + intros (Hnd & Hin & ->)%IH. split_and!.
      * constructor; [|done]. intros Hrest%Hin. set_solver.
      * intros m [->|Hm%Hin]%elem_of_cons; [done|set_solver].
      * set_solver.
    + by destruct (getattr wrapper "__name__").
Qed.

End validation.

(** The first element of a list that fails a decidable test splits the list
    around it. *)
Lemma first_failing {A} (P : A → Prop) `{!∀ x, Decision (P x)} (l : list A) x :
  x ∈ l → ¬ P x →
  ∃ pre m post, l = pre ++ m :: post ∧ ¬ P m ∧ ∀ y, y ∈ pre → P y.
Proof.
  induction l as [|a l IH]; intros Hin HnP.
  - by apply elem_of_nil in Hin.
  - destruct (decide (P a)) as [Ha|Ha].
    + destruct IH as (pre & m & post & -> & Hm & Hpre).
      * apply elem_of_cons in Hin as [->|?]; [contradiction|done].
      * done.
      * exists (a :: pre), m, post. split_and!; [done|done|].
        intros y [->|?]%elem_of_cons; auto.
    + exists [], a, l. split_and!; [done|done|].
      intros y Hy. by apply elem_of_nil in Hy.
Qed.

Lemma extra_names_nil_iff wrapper :
  extra_names wrapper = [] ↔
  ¬ length WRAPPER_ARGLIST < length (obj_args wrapper).
Proof.
  unfold extra_names. rewrite <-length_zero_iff_nil, length_drop. lia.
Qed.

Lemma NoDup_extra_names wrapper :
  NoDup (obj_args wrapper) → NoDup (extra_names wrapper).
Proof.
  unfold extra_names. intros H.
  rewrite <-(take_drop (length WRAPPER_ARGLIST) (obj_args wrapper)) in H.
  by apply NoDup_app in H as (_ & _ & ?).
Qed.

(** ** Building a decorator *)

Section building.
Context (wrapper : pyobj) (target : option pyobj) (default_params : dict).

Lemma decorator_missing h pre n post wrapper_name :
  extra_names wrapper = pre ++ n :: post →
  NoDup pre →
  (∀ x, x ∈ pre → x ∈ dom default_params) →
  n ∉ dom default_params →
  getattr wrapper "__name__" = Ok wrapper_name →
  decorator (Some wrapper) target default_params h
  = (Raise (MissingDefaultParameter n wrapper_name), h).
Proof.
  intros Hsplit Hnd Hpre Hn Hname.
  unfold decorator. fold (extra_names wrapper). rewrite Hsplit.
  by rewrite (match_expected_names_missing _ _ _ _ _ wrapper_name).
Qed.

Lemma decorator_absent h n wrapper_name :
  n ∈ extra_names wrapper →
  n ∉ dom default_params →
  getattr wrapper "__name__" = Ok wrapper_name →
  ∃ missing,
    missing ∈ extra_names wrapper ∧
    decorator (Some wrapper) target default_params h
    = (Raise (MissingDefaultParameter missing wrapper_name), h).
Proof.
  intros Hin Hout Hname.
  destruct (match_expected_names_absent wrapper (extra_names wrapper)
              (dom default_params) n wrapper_name)
    as (missing & Hmissing & Hloop); try done.
  exists missing. split; [done|].
  unfold decorator. fold (extra_names wrapper). by rewrite Hloop.
Qed.

Lemma decorator_validated h :
  NoDup (extra_names wrapper) →
  (∀ n, n ∈ extra_names wrapper → n ∈ dom default_params) →
  decorator (Some wrapper) target default_params h
  = let received_names :=
      dom default_params ∖ list_to_set (extra_names wrapper) in
    if decide (received_names ≠ ∅) then
      match getattr wrapper "__name__" with
      | Ok wrapper_name =>
          (Raise (UnexpectedDefaultParameters (elements received_names)
                    wrapper_name), h)
      | Raise e => (Raise e, h)
      end
    else if decide (extra_names wrapper = []) then
      (Ok (Direct
             {| wc_function :=
                  wraps wrapper (local_function "_wrapper" ["func"]);
                wc_wrapper := wrapper;
                wc_target := target |}), h)
    else
      let l := fresh (dom h) in
      (Ok (Parameterized
             {| pc_function := wraps wrapper (local_function "_partial" []);
                pc_wrapper := wrapper;
                pc_target := target;
                pc_expected_names := extra_names wrapper;
                pc_default_params := l |}), <[l := default_params]> h).
Proof.
  intros Hnd Hin.
  unfold decorator. fold (extra_names wrapper).
  rewrite match_expected_names_ok by done.
  unfold_monad.
  destruct (decide (_ ≠ ∅)) as [Hne|He].
  - by destruct (getattr _ _).
  - destruct (decide (extra_names wrapper = [])) as [Hnil|Hcons].
    + rewrite decide_False; [done|].
      by apply (proj1 (extra_names_nil_iff wrapper)).
    + rewrite decide_True; [done|].
      destruct (decide (length WRAPPER_ARGLIST < length (obj_args wrapper)))
        as [|Hge]; [done|].
      by apply (proj2 (extra_names_nil_iff wrapper)) in Hge.
Qed.

(** A decorator is built only for unique extra names that are exactly
    the keys of the defaults. *)
Lemma decorator_Ok_inv h d h' :
  decorator (Some wrapper) target default_params h = (Ok d, h') →
  NoDup (extra_names wrapper) ∧
  dom default_params = list_to_set (extra_names wrapper).
Proof.
  unfold decorator. fold (extra_names wrapper).
  destruct (match_expected_names _ _ _) as [remaining|e] eqn:Hloop;
    [|done].
  apply match_expected_names_Ok_inv in Hloop as (Hnd & Hin & ->).
  unfold_monad.
  destruct (decide (_ ≠ ∅)) as [Hne|He].
  { by destruct (getattr _ _). }
  intros _. split; [done|].
  apply dec_stable in He. apply set_eq. intros n. split.
  - intros Hn. destruct (decide (n ∈ extra_names wrapper)) as [|Hout].
    + by apply elem_of_list_to_set.
    + assert (n ∈ dom default_params ∖ list_to_set (extra_names wrapper))
        as Hdiff.
      { apply elem_of_difference. split; [done|].
        by rewrite elem_of_list_to_set. }
      rewrite He in Hdiff. by apply not_elem_of_empty in Hdiff.
  - intros Hn%elem_of_list_to_set. by apply Hin.
Qed.

(** What a successful call returns, and the store it leaves. *)
Lemma decorator_Ok_shape h d h' :
  decorator (Some wrapper) target default_params h = (Ok d, h') →
  (extra_names wrapper = [] ∧ h' = h ∧
   d = Direct
         {| wc_function :=
              wraps wrapper (local_function "_wrapper" ["func"]);
            wc_wrapper := wrapper;
            wc_target := target |})
  ∨
  (extra_names wrapper ≠ [] ∧
   h' = <[fresh (dom h) := default_params]> h ∧
   d = Parameterized
         {| pc_function := wraps wrapper (local_function "_partial" []);
            pc_wrapper := wrapper;
            pc_target := target;
            pc_expected_names := extra_names wrapper;
            pc_default_params := fresh (dom h) |}).
Proof.
  intros Hbuilt.
  destruct (decorator_Ok_inv _ _ _ Hbuilt) as [Hnd Hdom].
  rewrite decorator_validated in Hbuilt; [|done|].
  2:{ intros n Hn. rewrite Hdom. by apply elem_of_list_to_set. }
  cbn zeta in Hbuilt. rewrite decide_False in Hbuilt.
  2:{ intros Hne. apply Hne. rewrite Hdom. set_solver. }
  destruct (decide (extra_names wrapper = [])) as [Hnil|Hcons];
    injection Hbuilt as <- <-; auto.
Qed.

End building.

(** ** Applying a parameterized decorator *)

Lemma elem_of_keys (d : dict) k : k ∈ keys d ↔ k ∈ dom d.
Proof.
  unfold keys. rewrite list_elem_of_fmap, elem_of_dom. split.
  - intros ([k' v] & -> & Hkv). apply elem_of_map_to_list in Hkv. eauto.
  - intros [v Hv]. exists (k, v). split; [done|].
    by apply elem_of_map_to_list.
Qed.

Lemma elem_of_unexpected_keywords dp kwargs k :
  k ∈ unexpected_keywords dp kwargs ↔ k ∈ dom kwargs ∧ k ∉ dom dp.
Proof.
  unfold unexpected_keywords. rewrite list_elem_of_filter, elem_of_keys.
  tauto.
Qed.

Lemma unexpected_keywords_nil dp kwargs :
  unexpected_keywords dp kwargs = [] ↔ ∀ k, k ∈ dom kwargs → k ∈ dom dp.
Proof.
  split.
  - intros Hnil k Hk. destruct (decide (k ∈ dom dp)) as [|Hn]; [done|].
    assert (k ∈ unexpected_keywords dp kwargs) as Hin
      by by apply elem_of_unexpected_keywords.
    rewrite Hnil in Hin. by apply elem_of_nil in Hin.
  - intros Hall. apply elem_of_nil_inv. intros k Hk.
    apply elem_of_unexpected_keywords in Hk as [Hk Hn]. auto.
Qed.

Section positional.
Context (wrapper : pyobj) (expected_names : list string).
Hypothesis expected_NoDup : NoDup expected_names.

Lemma bind_positional_cases i args (kwargs : dict) :
  (i + length args ≤ length expected_names)%nat →
  (no_collision expected_names i (length args) kwargs ∧
   bind_positional wrapper expected_names i args kwargs
   = Ok (list_to_map (zip (drop i expected_names) args) ∪ kwargs))
  ∨
  (∃ j name,
      (i ≤ j < i + length args)%nat ∧ expected_names !! j = Some name ∧
      name ∈ dom kwargs ∧ no_collision expected_names i (j - i) kwargs ∧
      bind_positional wrapper expected_names i args kwargs
      = (wrapper_name ← getattr wrapper "__name__";
         Raise (UnexpectedParameters (PositionalAlsoKeyword name)
                  wrapper_name))).
Proof.
  revert i kwargs.
  induction args as [|arg rest IH]; intros i kwargs Hlen; simpl in *.
  - left. split.
    + intros j name Hj. lia.
    + destruct (drop i expected_names); simpl;
        by rewrite (left_id_L ∅ (∪)).
  - destruct (lookup_lt_is_Some_2 expected_names i) as [name Hname];
      [lia|].
    rewrite Hname.
    destruct (decide (name ∈ dom kwargs)) as [Hin|Hnin].
    + right. exists i, name. split_and!; try done; [lia|].
      intros j name' Hj. lia.
    + destruct (IH (S i) (<[name := arg]> kwargs)) as
        [[Hfree Heq]|(j & name' & Hj & Hname' & Hin' & Hfree & Heq)];
        [lia| |].
      * left. split.
        -- intros j name' Hj Hname'.
           destruct (decide (j = i)) as [->|Hne]; [congruence|].
           specialize (Hfree j name').
           rewrite dom_insert_L in Hfree.
           intros Hin'. apply Hfree; [lia|done|set_solver].
        -- rewrite Heq. f_equal.
           rewrite (drop_S expected_names name i Hname). simpl.
           rewrite <-insert_union_l. symmetry. apply insert_union_r.
           apply not_elem_of_list_to_map_1.
           intros Hin'. apply list_elem_of_fmap in Hin' as ([k v] & -> & Hkv).
           apply elem_of_zip_l in Hkv. simpl in Hkv.
           apply list_elem_of_lookup in Hkv as [j Hj].
           rewrite lookup_drop in Hj.
           assert (i = S i + j) by by eapply NoDup_lookup.
           lia.
      * right. exists j, name'.
        assert (name' ≠ name) as Hne.
        { intros ->.
          assert (i = j) by by eapply NoDup_lookup. lia. }
        split_and!; try done; try lia.
        -- rewrite dom_insert_L in Hin'. set_solver.
        -- intros j' name'' Hj' Hname''.
           destruct (decide (j' = i)) as [->|Hne']; [congruence|].
           specialize (Hfree j' name'').
           rewrite dom_insert_L in Hfree.
           intros Hin''. apply Hfree; [lia|done|set_solver].
Qed.

End positional.

Section applying.
Context (c : PartialClosure).
Implicit Types (h : heap) (dp kwargs : dict) (args : list pyval).

Lemma fresh_loc_allocated h l : is_Some (h !! l) → fresh (dom h) ≠ l.
Proof.
  intros Hl%elem_of_dom Heq. apply (is_fresh (dom h)). by rewrite Heq.
Qed.

(** The store after an application: untouched when an argument check
    fails, one new dictionary otherwise. *)
Lemma _partial_unfold h dp args kwargs :
  h !! pc_default_params c = Some dp →
  ParameterizedDecorator._partial c args kwargs h
  = let l := fresh (dom h) in
    match merged_parameters c dp args kwargs with
    | Ok complete =>
        (Ok {| in_wrapper := pc_wrapper c; in_target := pc_target c;
               in_complete_params := l |},
         <[l := complete]> h)
    | Raise e =>
        (Raise e,
         if decide (length (pc_expected_names c) < length args) then h
         else if decide (unexpected_keywords dp kwargs ≠ []) then h
         else <[l := dp]> h)
    end.
Proof.
  intros Hdp.
  unfold ParameterizedDecorator._partial, merged_parameters.
  fold (unexpected_keywords dp kwargs).
  destruct (decide (length (pc_expected_names c) < length args)).
  { unfold_monad. by destruct (getattr _ _). }
  unfold_monad. rewrite Hdp.
  fold (unexpected_keywords dp kwargs).
  destruct (decide (unexpected_keywords dp kwargs ≠ [])).
  { by destruct (getattr _ _). }
  destruct (bind_positional _ _ _ _ _) as [supplied|e]; [|done].
  rewrite lookup_insert_eq. by rewrite insert_insert_eq.
Qed.

Lemma complete_parameter_set_merged h dp args kwargs :
  h !! pc_default_params c = Some dp →
  (complete_parameter_set c args kwargs h).1
  = merged_parameters c dp args kwargs.
Proof.
  intros Hdp. unfold complete_parameter_set.
  unfold mbind at 1. unfold M_bind.
  rewrite (_partial_unfold h dp) by done. cbn zeta.
  destruct (merged_parameters c dp args kwargs) as [complete|e]; [|done].
  unfold load. simpl. by rewrite lookup_insert_eq.
Qed.

Lemma _partial_frame h args kwargs :
  (ParameterizedDecorator._partial c args kwargs h).2
    !! pc_default_params c
  = h !! pc_default_params c.
Proof.
  destruct (h !! pc_default_params c) as [dp|] eqn:Hdp.
  - rewrite (_partial_unfold h dp) by done. cbn zeta.
    assert (fresh (dom h) ≠ pc_default_params c) as Hne
      by by apply fresh_loc_allocated.
    destruct (merged_parameters c dp args kwargs); simpl.
    + by rewrite lookup_insert_ne.
    + repeat case_decide; try done. by rewrite lookup_insert_ne.
  - unfold ParameterizedDecorator._partial.
    case_decide.
    + unfold_monad. by destruct (getattr _ _).
    + unfold_monad. by rewrite Hdp.
Qed.

Lemma run_applications_frame apps h :
  run_applications c apps h !! pc_default_params c
  = h !! pc_default_params c.
Proof.
  revert h. induction apps as [|app apps IH]; intros h; [done|].
  simpl. fold (run_applications c apps). rewrite IH.
  apply _partial_frame.
Qed.

End applying.

Section merging.
Context (c : PartialClosure).
Hypothesis expected_NoDup : NoDup (pc_expected_names c).
Implicit Types (dp kwargs : dict) (args : list pyval).

Lemma unknown_keyword_iff dp kwargs :
  unknown_keyword dp kwargs ↔ unexpected_keywords dp kwargs ≠ [].
Proof.
  unfold unknown_keyword. split.
  - intros (k & Hk & Hn) Hnil.
    eapply unexpected_keywords_nil in Hnil; eauto.
  - intros Hne. destruct (unexpected_keywords dp kwargs) as [|k l] eqn:E;
      [done|].
    exists k. apply elem_of_unexpected_keywords. rewrite E. by left.
Qed.

Lemma supplied_both_ways_iff args kwargs :
  supplied_both_ways c args kwargs ↔
  ¬ no_collision (pc_expected_names c) 0 (length args) kwargs.
Proof.
  unfold supplied_both_ways, no_collision. split.
  - intros (i & name & Hi & Hname & Hin) Hfree.
    apply (Hfree i name); [lia|done|done].
  - intros Hcol.
    destruct (decide (Exists (λ name, name ∈ dom kwargs)
                        (take (length args) (pc_expected_names c))))
      as [Hex|Hnex].
    + apply Exists_exists in Hex as (name & Hin & Hdom).
      apply list_elem_of_lookup in Hin as [i Hi].
      apply lookup_take_Some in Hi as [Hi Hlt].
      by exists i, name.
    + destruct Hcol. intros j name Hj Hname Hdom. apply Hnex.
      apply Exists_exists. exists name. split; [|done].
      apply list_elem_of_lookup. exists j.
      apply lookup_take_Some. split; [done|lia].
Qed.

Lemma merged_parameters_too_many dp args kwargs wrapper_name :
  getattr (pc_wrapper c) "__name__" = Ok wrapper_name →
  too_many_positional c args →
  merged_parameters c dp args kwargs
  = Raise (UnexpectedParameters
             (TooManyPositional (length (pc_expected_names c))
                (length args)) wrapper_name).
Proof.
  intros Hname Hmany. unfold merged_parameters.
  rewrite decide_True by done. by rewrite Hname.
Qed.

Lemma merged_parameters_unknown dp args kwargs wrapper_name :
  getattr (pc_wrapper c) "__name__" = Ok wrapper_name →
  ¬ too_many_positional c args →
  unknown_keyword dp kwargs →
  merged_parameters c dp args kwargs
  = Raise (UnexpectedParameters
             (UnknownKeywords (unexpected_keywords dp kwargs))
             wrapper_name).
Proof.
  intros Hname Hmany Hunk%unknown_keyword_iff. unfold merged_parameters.
  rewrite decide_False by done. rewrite decide_True by done.
  by rewrite Hname.
Qed.

Lemma merged_parameters_collision dp args kwargs wrapper_name :
  getattr (pc_wrapper c) "__name__" = Ok wrapper_name →
  ¬ too_many_positional c args →
  ¬ unknown_keyword dp kwargs →
  supplied_both_ways c args kwargs →
  ∃ i name,
    (i < length args)%nat ∧ pc_expected_names c !! i = Some name ∧
    name ∈ dom kwargs ∧
    no_collision (pc_expected_names c) 0 i kwargs ∧
    merged_parameters c dp args kwargs
    = Raise (UnexpectedParameters (PositionalAlsoKeyword name)
               wrapper_name).
Proof.
  intros Hname Hmany Hunk Hboth. unfold merged_parameters.
  rewrite decide_False by done.
  rewrite decide_False by by rewrite <-unknown_keyword_iff.
  destruct (bind_positional_cases (pc_wrapper c) (pc_expected_names c)
              expected_NoDup 0 args kwargs)
    as [[Hfree _]|(i & name & Hi & Hlook & Hin & Hfree & ->)].
  - unfold too_many_positional in Hmany. simpl. lia.
  - by apply supplied_both_ways_iff in Hboth.
  - exists i, name. rewrite Hname. rewrite Nat.sub_0_r in Hfree.
    split_and!; try done. lia.
Qed.

Lemma merged_parameters_ok dp args kwargs :
  ¬ too_many_positional c args →
  ¬ unknown_keyword dp kwargs →
  ¬ supplied_both_ways c args kwargs →
  merged_parameters c dp args kwargs
  = Ok (list_to_map (zip (pc_expected_names c) args) ∪ kwargs ∪ dp).
Proof.
  intros Hmany Hunk Hboth. unfold merged_parameters.
  rewrite decide_False by done.
  rewrite decide_False by by rewrite <-unknown_keyword_iff.
  destruct (bind_positional_cases (pc_wrapper c) (pc_expected_names c)
              expected_NoDup 0 args kwargs)
    as [[Hfree ->]|(i & name & Hi & Hlook & Hin & _)].
  - unfold too_many_positional in Hmany. simpl. lia.
  - done.
  - destruct Hboth. exists i, name. split_and!; [lia|done|done].
Qed.

Lemma merged_parameters_Ok_inv dp args kwargs complete :
  merged_parameters c dp args kwargs = Ok complete →
  ¬ too_many_positional c args ∧ ¬ unknown_keyword dp kwargs ∧
  ¬ supplied_both_ways c args kwargs ∧
  complete = list_to_map (zip (pc_expected_names c) args) ∪ kwargs ∪ dp.
Proof.
  intros Hok.
  assert (∀ (f : pyval → exn),
            (v ← getattr (pc_wrapper c) "__name__"; Raise (f v))
            ≠ Ok complete) as Hraise.
  { intros f. by destruct (getattr _ _). }
  destruct (decide (length (pc_expected_names c) < length args))
    as [Hmany|Hmany].
  { exfalso. revert Hok. unfold merged_parameters.
    rewrite decide_True by done. apply Hraise. }
  destruct (decide (unexpected_keywords dp kwargs ≠ [])) as [Hunk|Hunk].
  { exfalso. revert Hok. unfold merged_parameters.
    rewrite decide_False by done. rewrite decide_True by done.
    apply Hraise. }
  rewrite <-unknown_keyword_iff in Hunk.
  assert (¬ supplied_both_ways c args kwargs) as Hboth.
  { intros Hboth%supplied_both_ways_iff. apply Hboth.
    revert Hok. unfold merged_parameters.
    rewrite decide_False by done.
    rewrite decide_False by by rewrite <-unknown_keyword_iff.
    destruct (bind_positional_cases (pc_wrapper c) (pc_expected_names c)
                expected_NoDup 0 args kwargs)
      as [[Hfree _]|(i & name & _ & _ & _ & _ & ->)].
    - unfold too_many_positional in Hmany. simpl. lia.
    - done.
    - unfold mbind, result_bind. by destruct (getattr _ _). }
  split_and!; try done.
  rewrite merged_parameters_ok in Hok by done. congruence.
Qed.

End merging.

(** ** Copying attributes *)

Lemma copy_attrs_lookup (source : pyobj) (attrs : list string)
    (dest : gmap string pyval) attr :
  foldl (λ dest attr,
           match getattr source attr with
           | Raise _ => dest
           | Ok value => <[attr := value]> dest
           end) dest attrs !! attr
  = if decide (attr ∈ attrs) then
      match obj_attrs source !! attr with
      | Some value => Some value
      | None => dest !! attr
      end
    else dest !! attr.
Proof.
  revert dest. induction attrs as [|a attrs IH]; intros dest; simpl.
  - done.
  - rewrite IH. unfold getattr.
    destruct (decide (attr ∈ attrs)) as [Hin|Hout].
    + rewrite decide_True by by right.
      destruct (obj_attrs source !! attr) eqn:Hattr; [done|].
      destruct (obj_attrs source !! a) eqn:Ha; [|done].
      rewrite lookup_insert_ne; [done|congruence].
    + destruct (decide (attr = a)) as [->|Hne].
      * rewrite decide_True by by left.
        destruct (obj_attrs source !! a); [|done].
        by rewrite lookup_insert_eq.
      * rewrite decide_False by (rewrite elem_of_cons; tauto).
        destruct (obj_attrs source !! a); [|done].
        by rewrite lookup_insert_ne.
Qed.

Lemma _update_adapter_fields (construct : WrapperConstruct) (target : pyobj) :
  let result := _update_adapter construct target in
  fw_wrapped result = fw_wrapped construct ∧
  fw_wrapper result = fw_wrapper construct ∧
  fw_params result = fw_params construct ∧
  fw_attrs result
  = foldl (λ dest attr,
             match getattr target attr with
             | Raise _ => dest
             | Ok value => <[attr := value]> dest
             end) (fw_attrs construct) ADAPTER_ATTRS.
Proof.
  unfold _update_adapter. generalize ADAPTER_ATTRS as attrs.
  intros attrs. revert construct.
  induction attrs as [|a attrs IH]; intros construct; simpl; [done|].
  destruct (getattr target a); simpl.
  - destruct (IH (setattr construct a a0)) as (-> & -> & -> & ->). done.
  - apply IH.
Qed.

(** * The properties of the specification *)

(** C1: for a parameterized decorator whose extra names are [(a, b)] and
    whose defaults are [{a: 1, b: 2}], the merge overlays the supplied values
    on the defaults, the i-th positional argument going to the i-th expected
    name: no argument gives [{a: 1, b: 2}], the positional [(9,)] gives
    [{a: 9, b: 2}], the keyword [a=9] gives [{a: 9, b: 2}]; and whenever an
    application succeeds, its complete parameter set is the positional
    arguments zipped with [(a, b)], then the keywords, then the defaults. *)
Theorem merge_overlays_defaults_ab wrapper target h :
  extra_names wrapper = ["a"; "b"] →
  ∃ c h',
    decorator (Some wrapper) target defaults_ab h = (Ok (Parameterized c), h')
    ∧ (complete_parameter_set c [] ∅ h').1
      = Ok {[ "a" := VInt 1; "b" := VInt 2 ]}
    ∧ (complete_parameter_set c [VInt 9] ∅ h').1
      = Ok {[ "a" := VInt 9; "b" := VInt 2 ]}
    ∧ (complete_parameter_set c [] {[ "a" := VInt 9 ]} h').1
      = Ok {[ "a" := VInt 9; "b" := VInt 2 ]}
    ∧ ∀ args kwargs complete,
        (complete_parameter_set c args kwargs h').1 = Ok complete →
        complete = list_to_map (zip ["a"; "b"] args) ∪ kwargs ∪ defaults_ab.
Proof.
  intros Hextra.
  assert (NoDup (extra_names wrapper)) as Hnd.
  { rewrite Hextra. by apply (bool_decide_unpack (NoDup ["a"; "b"])). }
  rewrite decorator_validated; [|done|].
  2:{ rewrite Hextra. intros n Hn. apply elem_of_dom.
      apply elem_of_cons in Hn as [->|Hn]; [by eexists|].
      apply elem_of_cons in Hn as [->|Hn]; [by eexists|].
      by apply elem_of_nil in Hn. }
  cbn zeta. rewrite Hextra.
  rewrite decide_False.
  2:{ intros Hne. apply Hne. by vm_compute. }
  rewrite decide_False by done.
  eexists _, _. split; [done|].
  set (c := {| pc_function := _ |}).
  assert (∀ args kwargs,
            (complete_parameter_set c args kwargs
               (<[fresh (dom h) := defaults_ab]> h)).1
            = merged_parameters c defaults_ab args kwargs) as Hmerged.
  { intros args kwargs. apply complete_parameter_set_merged.
    apply lookup_insert_eq. }
  rewrite !Hmerged. split_and!.
  - by vm_compute.
  - by vm_compute.
  - by vm_compute.
  - intros args kwargs complete. rewrite Hmerged.
    intros (_ & _ & _ & ->)%merged_parameters_Ok_inv; [done|].
    simpl. by rewrite <-Hextra.
Qed.

Lemma merge_overlays_defaults_ab_witness :
  extra_names behavior_ab = ["a"; "b"] ∧
  ∃ c h',
    decorator (Some behavior_ab) None defaults_ab ∅
    = (Ok (Parameterized c), h')
    ∧ (complete_parameter_set c [] ∅ h').1
      = Ok {[ "a" := VInt 1; "b" := VInt 2 ]}
    ∧ (complete_parameter_set c [VInt 9] ∅ h').1
      = Ok {[ "a" := VInt 9; "b" := VInt 2 ]}
    ∧ (complete_parameter_set c [] {[ "a" := VInt 9 ]} h').1
      = Ok {[ "a" := VInt 9; "b" := VInt 2 ]}
    ∧ ∀ args kwargs complete,
        (complete_parameter_set c args kwargs h').1 = Ok complete →
        complete = list_to_map (zip ["a"; "b"] args) ∪ kwargs ∪ defaults_ab.
Proof.
  split; [reflexivity|].
  apply (merge_overlays_defaults_ab behavior_ab None ∅). reflexivity.
Defined.




(** C3: when the behavior declares an extra parameter that the defaults do
    not hold, [decorator] itself fails with [MissingDefaultParameter], naming
    an extra parameter and the behavior, and leaves the store as it was.  The
    parameter names of a function being unique, the parameter named is the
    first extra name, in declaration order, that is absent from the defaults,
    every name before it having been matched and removed. *)
Theorem missing_default_parameter wrapper target default_params h
    wrapper_name n :
  getattr wrapper "__name__" = Ok wrapper_name →
  n ∈ extra_names wrapper →
  n ∉ dom default_params →
  ∃ missing,
    missing ∈ extra_names wrapper ∧
    decorator (Some wrapper) target default_params h
    = (Raise (MissingDefaultParameter missing wrapper_name), h) ∧
    (NoDup (obj_args wrapper) →
     (missing ∉ dom default_params) ∧
     ∃ pre post,
       extra_names wrapper = pre ++ missing :: post ∧
       ∀ x, x ∈ pre → x ∈ dom default_params).
Proof.
  intros Hname Hn Hout.
  destruct (decide (NoDup (extra_names wrapper))) as [Hnd|Hdup].
  - destruct (first_failing (λ x, x ∈ dom default_params) _ n Hn Hout)
      as (pre & missing & post & Hsplit & Hmissing & Hpre).
    exists missing. split_and!.
    + rewrite Hsplit. set_solver.
    + apply (decorator_missing _ _ _ _ pre missing post); try done.
      rewrite Hsplit in Hnd. by apply NoDup_app in Hnd as (? & _ & _).
    + intros _. split; [done|]. by exists pre, post.
  - destruct (decorator_absent wrapper target default_params h n
                wrapper_name) as (missing & Hmissing & Hraise); try done.
    exists missing. split_and!; try done.
    by intros Hnd%NoDup_extra_names.
Qed.

Lemma missing_default_parameter_witness :
  ∃ missing,
    missing ∈ extra_names behavior_ab ∧
    decorator (Some behavior_ab) None {[ "a" := VInt 1 ]} ∅
    = (Raise (MissingDefaultParameter missing (VStr "behavior_ab")), ∅) ∧
    (NoDup (obj_args behavior_ab) →
     (missing ∉ dom ({[ "a" := VInt 1 ]} : dict)) ∧
     ∃ pre post,
       extra_names behavior_ab = pre ++ missing :: post ∧
       ∀ x, x ∈ pre → x ∈ dom ({[ "a" := VInt 1 ]} : dict)).
Proof.
  apply (missing_default_parameter behavior_ab None {[ "a" := VInt 1 ]} ∅
           (VStr "behavior_ab") "b").
  - reflexivity.
  - apply (bool_decide_unpack ("b" ∈ extra_names behavior_ab)).
    vm_compute. exact I.
  - apply (bool_decide_unpack ("b" ∉ dom ({[ "a" := VInt 1 ]} : dict))).
    vm_compute. exact I.
Defined.

(** C4: when every extra name of the behavior has a default and the defaults
    hold a key that is not an extra name, [decorator] itself fails with
    [UnexpectedDefaultParameters]; the error names the behavior and lists,
    once each, exactly the keys of the defaults that are not extra names.
    The store is left as it was. *)
Theorem unexpected_default_parameters wrapper target default_params h
    wrapper_name k :
  getattr wrapper "__name__" = Ok wrapper_name →
  NoDup (obj_args wrapper) →
  (∀ n, n ∈ extra_names wrapper → n ∈ dom default_params) →
  k ∈ dom default_params →
  k ∉ extra_names wrapper →
  ∃ names,
    decorator (Some wrapper) target default_params h
    = (Raise (UnexpectedDefaultParameters names wrapper_name), h) ∧
    NoDup names ∧
    ∀ x, x ∈ names ↔ x ∈ dom default_params ∧ x ∉ extra_names wrapper.
Proof.
  intros Hname Hnd%NoDup_extra_names Hall Hk Hout.
  rewrite decorator_validated by done. cbn zeta.
  rewrite decide_True.
  2:{ intros Hempty.
      assert (k ∈ dom default_params ∖ list_to_set (extra_names wrapper))
        as Hin.
      { apply elem_of_difference. by rewrite elem_of_list_to_set. }
      rewrite Hempty in Hin. by apply not_elem_of_empty in Hin. }
  rewrite Hname. eexists. split_and!; [done|apply NoDup_elements|].
  intros x. by rewrite elem_of_elements, elem_of_difference,
    elem_of_list_to_set.
Qed.

Lemma unexpected_default_parameters_witness :
  ∃ names,
    decorator (Some behavior_ab) None
      {[ "a" := VInt 1; "b" := VInt 2; "c" := VInt 3 ]} ∅
    = (Raise (UnexpectedDefaultParameters names (VStr "behavior_ab")), ∅) ∧
    NoDup names ∧
    ∀ x, x ∈ names ↔
         x ∈ dom ({[ "a" := VInt 1; "b" := VInt 2; "c" := VInt 3 ]} : dict) ∧
         x ∉ extra_names behavior_ab.
Proof.
  apply (unexpected_default_parameters behavior_ab None
           {[ "a" := VInt 1; "b" := VInt 2; "c" := VInt 3 ]} ∅
           (VStr "behavior_ab") "c").
  - reflexivity.
  - apply (bool_decide_unpack (NoDup (obj_args behavior_ab))).
    vm_compute. exact I.
  - apply Forall_forall.
    apply (bool_decide_unpack
             (Forall (λ n, n ∈ dom ({[ "a" := VInt 1; "b" := VInt 2;
                                       "c" := VInt 3 ]} : dict))
                (extra_names behavior_ab))).
    vm_compute. exact I.
  - apply (bool_decide_unpack
             ("c" ∈ dom ({[ "a" := VInt 1; "b" := VInt 2;
                            "c" := VInt 3 ]} : dict))).
    vm_compute. exact I.
  - apply (bool_decide_unpack ("c" ∉ extra_names behavior_ab)).
    vm_compute. exact I.
Defined.

(** C5: an application of a parameterized decorator raises
    [UnexpectedParameters], at the application itself, in exactly three
    cases: more positional arguments than extra names, a keyword that is not
    a key of the defaults, or a parameter given both by position and by
    keyword.  Each case carries its own message, and in every other case the
    application returns the inner decorator; applying that one to a function
    is [ParameterizedDecorator._wrapper], which has no exception to raise. *)
Theorem unexpected_parameters_at_application c h dp wrapper_name args kwargs :
  h !! pc_default_params c = Some dp →
  NoDup (pc_expected_names c) →
  getattr (pc_wrapper c) "__name__" = Ok wrapper_name →
  let outcome := (ParameterizedDecorator._partial c args kwargs h).1 in
  (too_many_positional c args →
   outcome = Raise (UnexpectedParameters
                      (TooManyPositional (length (pc_expected_names c))
                         (length args)) wrapper_name)) ∧
  (¬ too_many_positional c args → unknown_keyword dp kwargs →
   ∃ names,
     outcome = Raise (UnexpectedParameters (UnknownKeywords names)
                        wrapper_name) ∧
     ∀ k, k ∈ names ↔ k ∈ dom kwargs ∧ k ∉ dom dp) ∧
  (¬ too_many_positional c args → ¬ unknown_keyword dp kwargs →
   supplied_both_ways c args kwargs →
   ∃ i name,
     (i < length args)%nat ∧ pc_expected_names c !! i = Some name ∧
     name ∈ dom kwargs ∧
     outcome = Raise (UnexpectedParameters (PositionalAlsoKeyword name)
                        wrapper_name)) ∧
  ((∃ reason, outcome = Raise (UnexpectedParameters reason wrapper_name)) ↔
   too_many_positional c args ∨ unknown_keyword dp kwargs ∨
   supplied_both_ways c args kwargs) ∧
  (¬ (too_many_positional c args ∨ unknown_keyword dp kwargs ∨
      supplied_both_ways c args kwargs) →
   ∃ inner, outcome = Ok inner).
Proof.
  intros Hdp Hnd Hname outcome.
  assert (outcome = match merged_parameters c dp args kwargs with
                    | Ok _ =>
                        Ok {| in_wrapper := pc_wrapper c;
                              in_target := pc_target c;
                              in_complete_params := fresh (dom h) |}
                    | Raise e => Raise e
                    end) as ->.
  { unfold outcome. rewrite (_partial_unfold c h dp) by done. cbn zeta.
    by destruct (merged_parameters c dp args kwargs). }
  assert (∀ P : Prop, Decision P → P ∨ ¬ P) as Hem.
  { intros P [?|?]; auto. }
  assert (too_many_positional c args ∨ ¬ too_many_positional c args)
    as Hmany by (apply Hem; unfold too_many_positional; apply _).
  assert (unknown_keyword dp kwargs ∨ ¬ unknown_keyword dp kwargs) as Hunk.
  { destruct (decide (unexpected_keywords dp kwargs ≠ [])) as [H|H];
      rewrite <-unknown_keyword_iff in H; auto. }
  assert (supplied_both_ways c args kwargs ∨
          ¬ supplied_both_ways c args kwargs) as Hboth.
  { destruct (decide (Exists (λ name, name ∈ dom kwargs)
                        (take (length args) (pc_expected_names c))))
      as [Hex|Hnex].
    - left. apply Exists_exists in Hex as (name & Hin & Hdom).
      apply list_elem_of_lookup in Hin as [i Hi].
      apply lookup_take_Some in Hi as [Hi Hlt]. by exists i, name.
    - right. intros (i & name & Hi & Hlook & Hdom). apply Hnex.
      apply Exists_exists. exists name. split; [|done].
      apply list_elem_of_lookup. exists i. by apply lookup_take_Some. }
  split_and!.
  - intros H. by rewrite (merged_parameters_too_many c dp _ _ wrapper_name).
  - intros H1 H2.
    rewrite (merged_parameters_unknown c dp _ _ wrapper_name) by done.
    eexists. split; [done|]. apply elem_of_unexpected_keywords.
  - intros H1 H2 H3.
    destruct (merged_parameters_collision c Hnd dp args kwargs wrapper_name)
      as (i & name & Hi & Hlook & Hin & _ & ->); try done.
    by exists i, name.
  - split.
    + intros [reason Hr].
      destruct Hmany as [|Hmany]; [by left|].
      destruct Hunk as [|Hunk]; [by right; left|].
      destruct Hboth as [|Hboth]; [by right; right|].
      by rewrite merged_parameters_ok in Hr.
    + intros Hany.
      destruct Hmany as [Hmany|Hmany].
      { rewrite (merged_parameters_too_many c dp _ _ wrapper_name) by done.
        by eexists. }
      destruct Hunk as [Hunk|Hunk].
      { rewrite (merged_parameters_unknown c dp _ _ wrapper_name) by done.
        by eexists. }
      destruct Hany as [|[|Hcol]]; [done|done|].
      destruct (merged_parameters_collision c Hnd dp args kwargs
                  wrapper_name) as (i & name & _ & _ & _ & _ & ->);
        try done.
      by eexists.
  - intros Hnone. rewrite merged_parameters_ok; [|done|tauto..].
    by eexists.
Qed.

Lemma unexpected_parameters_at_application_witness :
  ({[ 1%positive := defaults_ab ]} : heap) !! pc_default_params partial_ab
  = Some defaults_ab ∧
  NoDup (pc_expected_names partial_ab) ∧
  getattr (pc_wrapper partial_ab) "__name__" = Ok (VStr "behavior_ab") ∧
  ((∃ reason,
       (ParameterizedDecorator._partial partial_ab [VInt 9]
          {[ "a" := VInt 9 ]} {[ 1%positive := defaults_ab ]}).1
       = Raise (UnexpectedParameters reason (VStr "behavior_ab"))) ↔
   too_many_positional partial_ab [VInt 9] ∨
   unknown_keyword defaults_ab {[ "a" := VInt 9 ]} ∨
   supplied_both_ways partial_ab [VInt 9] {[ "a" := VInt 9 ]}).
Proof.
  assert (({[ 1%positive := defaults_ab ]} : heap)
            !! pc_default_params partial_ab = Some defaults_ab) as Hdp
    by reflexivity.
  assert (NoDup (pc_expected_names partial_ab)) as Hnd.
  { apply (bool_decide_unpack (NoDup (pc_expected_names partial_ab))).
    vm_compute. exact I. }
  assert (getattr (pc_wrapper partial_ab) "__name__"
          = Ok (VStr "behavior_ab")) as Hname by reflexivity.
  split_and!; [exact Hdp|exact Hnd|exact Hname|].
  exact (proj1 (proj2 (proj2 (proj2
           (unexpected_parameters_at_application partial_ab
              {[ 1%positive := defaults_ab ]} defaults_ab
              (VStr "behavior_ab") [VInt 9] {[ "a" := VInt 9 ]}
              Hdp Hnd Hname))))).
Defined.




(** C7: called without a behavior, [decorator] returns a deferred builder
    that holds the defaults and the adapter target it was given; applying
    that builder to a behavior later is the call of [decorator] with the
    behavior, the same target and the same defaults: the same exception or
    the same decorator, in any store. *)
Theorem deferred_builder_equivalence target default_params h :
  ∃ p,
    decorator None target default_params h = (Ok (Deferred p), h) ∧
    db_target p = target ∧
    db_default_params p = default_params ∧
    ∀ wrapper h',
      call_deferred p (Some wrapper) None ∅ h'
      = decorator (Some wrapper) target default_params h'.
Proof.
  eexists. split_and!; [reflexivity..|].
  intros wrapper h'. unfold call_deferred. simpl.
  by rewrite (left_id_L ∅ (∪)).
Qed.

(** C8: when the extra names of the behavior are unique and are exactly the
    keys of the defaults, [decorator] succeeds and returns a function, and
    each of [__name__], [__qualname__] and [__module__] that the behavior
    has is, on that function, the behavior's and not the one of the local
    [_partial] or [_wrapper]. *)
Theorem generated_decorator_identity wrapper target default_params h :
  NoDup (extra_names wrapper) →
  dom default_params = list_to_set (extra_names wrapper) →
  ∃ d h' f,
    decorator (Some wrapper) target default_params h = (Ok d, h') ∧
    decorator_function d = Some f ∧
    ∀ attr value,
      attr ∈ ["__name__"; "__qualname__"; "__module__"] →
      obj_attrs wrapper !! attr = Some value →
      obj_attrs f !! attr = Some value.
Proof.
  intros Hnd Hdom.
  assert (∀ helper attr value,
            attr ∈ ["__name__"; "__qualname__"; "__module__"] →
            obj_attrs wrapper !! attr = Some value →
            obj_attrs (wraps wrapper helper) !! attr = Some value) as Hwraps.
  { intros helper attr value Hattr Hvalue. unfold wraps, update_wrapper.
    cbn [obj_attrs]. rewrite copy_attrs_lookup, Hvalue.
    rewrite decide_True; [done|].
    unfold WRAPPER_ASSIGNMENTS. set_solver. }
  rewrite decorator_validated; [|done|].
  2:{ intros n Hn. rewrite Hdom. by apply elem_of_list_to_set. }
  cbn zeta. rewrite decide_False.
  2:{ intros Hne. apply Hne. rewrite Hdom. set_solver. }
  destruct (decide (extra_names wrapper = [])).
  - eexists _, _, _. split_and!; [done|done|]. apply Hwraps.
  - eexists _, _, _. split_and!; [done|done|]. apply Hwraps.
Qed.

Lemma generated_decorator_identity_witness :
  NoDup (extra_names behavior_ab) ∧
  dom defaults_ab = list_to_set (extra_names behavior_ab) ∧
  ∃ d h' f,
    decorator (Some behavior_ab) None defaults_ab ∅ = (Ok d, h') ∧
    decorator_function d = Some f ∧
    ∀ attr value,
      attr ∈ ["__name__"; "__qualname__"; "__module__"] →
      obj_attrs behavior_ab !! attr = Some value →
      obj_attrs f !! attr = Some value.
Proof.
  assert (NoDup (extra_names behavior_ab)) as Hnd.
  { apply (bool_decide_unpack (NoDup (extra_names behavior_ab))).
    vm_compute. exact I. }
  assert (dom defaults_ab = list_to_set (extra_names behavior_ab)) as Hdom
    by (vm_compute; reflexivity).
  split_and!; [exact Hnd|exact Hdom|].
  exact (generated_decorator_identity behavior_ab None defaults_ab ∅
           Hnd Hdom).
Defined.

(** C9: once a parameterized decorator is built, no application of it,
    raising or not, changes the dictionary of defaults it holds: after any
    run of applications that dictionary still has the contents it was built
    with.  A successful application puts its complete parameter set in a
    dictionary that did not exist before the call, so the same arguments
    give the same exception or equal complete parameter sets after any two
    runs. *)
Theorem default_params_never_mutated wrapper target default_params h0 c h1 :
  decorator (Some wrapper) target default_params h0
  = (Ok (Parameterized c), h1) →
  ∀ apps,
    let h := run_applications c apps h1 in
    h !! pc_default_params c = Some default_params ∧
    (∀ args kwargs inner h',
       ParameterizedDecorator._partial c args kwargs h = (Ok inner, h') →
       (in_complete_params inner ∉ dom h) ∧
       h' !! pc_default_params c = Some default_params) ∧
    ∀ apps' args kwargs,
      (complete_parameter_set c args kwargs h).1
      = (complete_parameter_set c args kwargs
           (run_applications c apps' h1)).1.
Proof.
  intros Hbuilt.
  assert (h1 !! pc_default_params c = Some default_params) as Hcell.
  { destruct (decorator_Ok_shape _ _ _ _ _ _ Hbuilt)
      as [(_ & _ & [=])|(_ & -> & [= ->])].
    apply lookup_insert_eq. }
  assert (∀ apps, run_applications c apps h1 !! pc_default_params c
                  = Some default_params) as Hframe.
  { intros apps. by rewrite run_applications_frame. }
  intros apps h. subst h. split_and!.
  - apply Hframe.
  - intros args kwargs inner h' Happ. split.
    + rewrite (_partial_unfold c _ default_params) in Happ by apply Hframe.
      cbn zeta in Happ.
      destruct (merged_parameters c default_params args kwargs); [|done].
      injection Happ as <- _. simpl. apply is_fresh.
    + rewrite <-(Hframe apps).
      rewrite <-(_partial_frame c (run_applications c apps h1) args kwargs).
      by rewrite Happ.
  - intros apps' args kwargs.
    by rewrite !(complete_parameter_set_merged c _ default_params)
      by apply Hframe.
Qed.

Lemma default_params_never_mutated_witness :
  decorator (Some behavior_ab) None defaults_ab ∅
  = (Ok (Parameterized partial_ab), {[ 1%positive := defaults_ab ]}) ∧
  run_applications partial_ab
    [([VInt 9], ∅); ([VInt 7; VInt 8; VInt 9], ∅);
     ([VInt 9], {[ "a" := VInt 9 ]})]
    {[ 1%positive := defaults_ab ]} !! pc_default_params partial_ab
  = Some defaults_ab.
Proof.
  assert (decorator (Some behavior_ab) None defaults_ab ∅
          = (Ok (Parameterized partial_ab), {[ 1%positive := defaults_ab ]}))
    as Hbuilt by (vm_compute; reflexivity).
  split; [exact Hbuilt|].
  exact (proj1 (default_params_never_mutated behavior_ab None defaults_ab ∅
                  partial_ab _ Hbuilt
                  [([VInt 9], ∅); ([VInt 7; VInt 8; VInt 9], ∅);
                   ([VInt 9], {[ "a" := VInt 9 ]})])).
Defined.

(** C10: for a behavior that declares fewer than four parameters and no
    defaults, [decorator] raises nothing: the slice past the four fixed
    names is empty, and the decorator returned is the direct one-argument
    [_wrapper]; the store is left as it was. *)
Theorem short_signature_builds_direct wrapper target h :
  length (obj_args wrapper) < length WRAPPER_ARGLIST →
  extra_names wrapper = [] ∧
  decorator (Some wrapper) target ∅ h
  = (Ok (Direct
           {| wc_function :=
                wraps wrapper (local_function "_wrapper" ["func"]);
              wc_wrapper := wrapper;
              wc_target := target |}), h).
Proof.
  intros Hshort.
  assert (extra_names wrapper = []) as Hnil.
  { unfold extra_names. apply drop_ge. lia. }
  split; [done|].
  rewrite decorator_validated; rewrite Hnil.
  - cbn zeta. rewrite decide_False.
    + by rewrite decide_True.
    + intros Hne. apply Hne. set_solver.
  - constructor.
  - intros n Hn. by apply elem_of_nil in Hn.
Qed.

Lemma short_signature_builds_direct_witness :
  length (obj_args behavior_short) < length WRAPPER_ARGLIST ∧
  extra_names behavior_short = [] ∧
  decorator (Some behavior_short) None ∅ ∅
  = (Ok (Direct
           {| wc_function :=
                wraps behavior_short (local_function "_wrapper" ["func"]);
              wc_wrapper := behavior_short;
              wc_target := None |}), ∅).
Proof.
  assert (length (obj_args behavior_short) < length WRAPPER_ARGLIST)
    as Hshort by (vm_compute; lia).
  split; [exact Hshort|].
  exact (short_signature_builds_direct behavior_short None ∅ Hshort).
Defined.

(** * Further properties of the module *)

(** ** The store only grows *)

Lemma alloc_grows (d : dict) (h : heap) l d0 :
  h !! l = Some d0 → (alloc d h).2 !! l = Some d0.
Proof.
  intros Hl. unfold alloc. simpl. rewrite lookup_insert_ne; [done|].
  apply fresh_loc_allocated. by eexists.
Qed.

Lemma decorator_grows wrapper target default_params (h : heap) l d0 :
  h !! l = Some d0 →
  (decorator wrapper target default_params h).2 !! l = Some d0.
Proof.
  intros Hl. destruct wrapper as [wrapper|]; [|done].
  unfold decorator.
  destruct (match_expected_names _ _ _) as [remaining|e]; [|done].
  unfold_monad.
  destruct (decide (remaining ≠ ∅)).
  { by destruct (getattr _ _). }
  case_decide; [|done]. simpl. rewrite lookup_insert_ne; [done|].
  apply fresh_loc_allocated. by eexists.
Qed.

Lemma _partial_grows c args kwargs (h : heap) l d0 :
  h !! l = Some d0 →
  (ParameterizedDecorator._partial c args kwargs h).2 !! l = Some d0.
Proof.
  intros Hl.
  assert (fresh (dom h) ≠ l) as Hfresh
    by (apply fresh_loc_allocated; by eexists).
  destruct (h !! pc_default_params c) as [dp|] eqn:Hdp.
  - rewrite (_partial_unfold c h dp) by done. cbn zeta.
    destruct (merged_parameters c dp args kwargs); simpl.
    + by rewrite lookup_insert_ne.
    + repeat case_decide; try done. by rewrite lookup_insert_ne.
  - unfold ParameterizedDecorator._partial.
    case_decide.
    + unfold_monad. by destruct (getattr _ _).
    + unfold_monad. by rewrite Hdp.
Qed.

Lemma perform_grows a (h : heap) l d0 :
  h !! l = Some d0 → perform a h !! l = Some d0.
Proof.
  intros Hl. destruct a as [wrapper target dp|c args kwargs]; simpl.
  - by apply decorator_grows.
  - by apply _partial_grows.
Qed.

Lemma run_grows actions (h : heap) l d0 :
  h !! l = Some d0 → run actions h !! l = Some d0.
Proof.
  revert h. induction actions as [|a actions IH]; intros h Hl; [done|].
  simpl. by apply IH, perform_grows.
Qed.

(** X1: no call of the module changes or removes a dictionary that exists.
    After any run of builds and applications, of any decorators and with any
    outcome, every dictionary of the store still has the contents it had. *)
Theorem store_only_grows actions (h : heap) l d0 :
  h !! l = Some d0 → run actions h !! l = Some d0.
Proof. apply run_grows. Qed.

Lemma store_only_grows_witness :
  ({[ 1%positive := defaults_ab ]} : heap) !! 1%positive = Some defaults_ab ∧
  run [Apply partial_ab [VInt 9] ∅;
       Build (Some behavior_ab) None {[ "a" := VInt 5; "b" := VInt 6 ]};
       Apply partial_ab [VInt 7; VInt 8; VInt 9] ∅]
    {[ 1%positive := defaults_ab ]} !! 1%positive = Some defaults_ab.
Proof.
  assert (({[ 1%positive := defaults_ab ]} : heap) !! 1%positive
          = Some defaults_ab) as Hcell by reflexivity.
  split; [exact Hcell|].
  exact (store_only_grows _ _ _ _ Hcell).
Defined.

(** ** What an application hands out *)

Lemma _partial_Ok_inv c args kwargs (h : heap) inner h' :
  ParameterizedDecorator._partial c args kwargs h = (Ok inner, h') →
  ∃ dp complete,
    h !! pc_default_params c = Some dp ∧
    merged_parameters c dp args kwargs = Ok complete ∧
    inner = {| in_wrapper := pc_wrapper c; in_target := pc_target c;
               in_complete_params := fresh (dom h) |} ∧
    h' = <[fresh (dom h) := complete]> h.
Proof.
  intros Happ.
  destruct (h !! pc_default_params c) as [dp|] eqn:Hdp.
  - rewrite (_partial_unfold c h dp) in Happ by done. cbn zeta in Happ.
    destruct (merged_parameters c dp args kwargs) as [complete|e] eqn:Hm;
      [|done].
    injection Happ as <- <-. by exists dp, complete.
  - exfalso. revert Happ. unfold ParameterizedDecorator._partial.
    case_decide.
    + unfold_monad. by destruct (getattr _ _).
    + unfold_monad. by rewrite Hdp.
Qed.

(** X2: the dictionary a successful application hands to its inner
    decorator did not exist before the call, and nothing the module does
    later changes it: after any run of builds and applications it has the
    same contents, and every later successful application, of this or of any
    other decorator, hands out a different dictionary. *)
Theorem complete_params_are_final c args kwargs (h : heap) inner h1 :
  ParameterizedDecorator._partial c args kwargs h = (Ok inner, h1) →
  (in_complete_params inner ∉ dom h) ∧
  ∃ complete,
    h1 !! in_complete_params inner = Some complete ∧
    ∀ actions,
      run actions h1 !! in_complete_params inner = Some complete ∧
      ∀ c' args' kwargs' inner' h2,
        ParameterizedDecorator._partial c' args' kwargs' (run actions h1)
        = (Ok inner', h2) →
        in_complete_params inner' ≠ in_complete_params inner ∧
        h2 !! in_complete_params inner = Some complete.
Proof.
  intros Happ0.
  apply _partial_Ok_inv in Happ0 as (dp & complete & Hdp & Hm & -> & ->).
  simpl.
  split; [apply is_fresh|].
  exists complete. split; [apply lookup_insert_eq|].
  intros actions.
  assert (run actions (<[fresh (dom h) := complete]> h) !! fresh (dom h)
          = Some complete) as Hkept.
  { apply run_grows, lookup_insert_eq. }
  split; [done|].
  intros c' args' kwargs' inner' h2 Happ. split.
  - apply _partial_Ok_inv in Happ as (_ & _ & _ & _ & -> & _). simpl.
    apply fresh_loc_allocated. by eexists.
  - rewrite <-Hkept.
    replace h2 with
      (ParameterizedDecorator._partial c' args' kwargs'
         (run actions (<[fresh (dom h) := complete]> h))).2
      by by rewrite Happ.
    rewrite Hkept. by apply _partial_grows.
Qed.

Lemma complete_params_are_final_witness :
  ParameterizedDecorator._partial partial_ab [VInt 9] ∅
    {[ 1%positive := defaults_ab ]}
  = (Ok {| in_wrapper := behavior_ab; in_target := None;
           in_complete_params := 2%positive |},
     {[ 1%positive := defaults_ab;
        2%positive := {[ "a" := VInt 9; "b" := VInt 2 ]} ]}) ∧
  (2%positive ∉ dom ({[ 1%positive := defaults_ab ]} : heap)).
Proof.
  assert (ParameterizedDecorator._partial partial_ab [VInt 9] ∅
            {[ 1%positive := defaults_ab ]}
          = (Ok {| in_wrapper := behavior_ab; in_target := None;
                   in_complete_params := 2%positive |},
             {[ 1%positive := defaults_ab;
                2%positive := {[ "a" := VInt 9; "b" := VInt 2 ]} ]}))
    as Happ by (vm_compute; reflexivity).
  split; [exact Happ|].
  exact (proj1 (complete_params_are_final _ _ _ _ _ _ Happ)).
Defined.

(** X3: two parameterized decorators never share their defaults.  When a
    second decorator is built after the first, whatever was built or applied
    in between, the two hold different dictionaries, and after any further
    run each dictionary still has the defaults its decorator was built
    with. *)
Theorem decorators_are_independent
    wrapper1 target1 defaults1 (h0 : heap) c1 h1 actions
    wrapper2 target2 defaults2 c2 h2 :
  decorator (Some wrapper1) target1 defaults1 h0
  = (Ok (Parameterized c1), h1) →
  decorator (Some wrapper2) target2 defaults2 (run actions h1)
  = (Ok (Parameterized c2), h2) →
  pc_default_params c1 ≠ pc_default_params c2 ∧
  ∀ actions',
    run actions' h2 !! pc_default_params c1 = Some defaults1 ∧
    run actions' h2 !! pc_default_params c2 = Some defaults2.
Proof.
  intros Hfirst Hsecond.
  destruct (decorator_Ok_shape _ _ _ _ _ _ Hfirst)
    as [(_ & _ & [=])|(_ & -> & [= ->])].
  destruct (decorator_Ok_shape _ _ _ _ _ _ Hsecond)
    as [(_ & _ & [=])|(_ & -> & [= ->])].
  simpl.
  assert (run actions (<[fresh (dom h0) := defaults1]> h0) !! fresh (dom h0)
          = Some defaults1) as Hkept.
  { apply run_grows, lookup_insert_eq. }
  assert (fresh (dom (run actions (<[fresh (dom h0):=defaults1]> h0)))
          ≠ fresh (dom h0)) as Hne.
  { apply fresh_loc_allocated. by eexists. }
  split; [done|].
  intros actions'. split; apply run_grows.
  - by rewrite lookup_insert_ne.
  - apply lookup_insert_eq.
Qed.

Lemma decorators_are_independent_witness :
  decorator (Some behavior_ab) None defaults_ab ∅
  = (Ok (Parameterized partial_ab), {[ 1%positive := defaults_ab ]}) ∧
  pc_default_params partial_ab ≠ 3%positive.
Proof.
  assert (decorator (Some behavior_ab) None defaults_ab ∅
          = (Ok (Parameterized partial_ab), {[ 1%positive := defaults_ab ]}))
    as Hfirst by (vm_compute; reflexivity).
  assert (decorator (Some behavior_ab) (Some prototype)
            {[ "a" := VInt 5; "b" := VInt 6 ]}
            (run [Apply partial_ab [VInt 9] ∅]
               {[ 1%positive := defaults_ab ]})
          = (Ok (Parameterized
                   {| pc_function :=
                        wraps behavior_ab (local_function "_partial" []);
                      pc_wrapper := behavior_ab;
                      pc_target := Some prototype;
                      pc_expected_names := ["a"; "b"];
                      pc_default_params := 3%positive |}),
             {[ 1%positive := defaults_ab;
                2%positive := {[ "a" := VInt 9; "b" := VInt 2 ]};
                3%positive := {[ "a" := VInt 5; "b" := VInt 6 ]} ]}))
    as Hsecond by (vm_compute; reflexivity).
  split; [exact Hfirst|].
  exact (proj1 (decorators_are_independent _ _ _ _ _ _ _ _ _ _ _ _
                  Hfirst Hsecond)).
Defined.

(** ** The contents of a complete parameter set *)

Lemma lookup_zip_map (names : list string) (values : list pyval) i name :
  NoDup names →
  names !! i = Some name →
  (list_to_map (zip names values) : dict) !! name = values !! i.
Proof.
  intros Hnd. revert i values.
  induction Hnd as [|n names Hn Hnd IH]; intros i values Hi; [done|].
  destruct values as [|v values].
  - simpl. by rewrite lookup_empty, lookup_nil.
  - destruct i as [|i]; simpl in *.
    + injection Hi as ->. apply lookup_insert_eq.
    + rewrite lookup_insert_ne; [by apply IH|].
      intros ->. apply Hn. by eapply list_elem_of_lookup_2.
Qed.

Lemma lookup_zip_map_None (names : list string) (values : list pyval) k :
  k ∉ names → (list_to_map (zip names values) : dict) !! k = None.
Proof.
  intros Hk. apply not_elem_of_list_to_map_1.
  intros ([k' v] & -> & Hin%elem_of_zip_l)%list_elem_of_fmap. done.
Qed.

Lemma dom_zip_map (names : list string) (values : list pyval) :
  dom (list_to_map (zip names values) : dict) ⊆ list_to_set names.
Proof.
  intros k [v Hk]%elem_of_dom. apply elem_of_list_to_set.
  destruct (decide (k ∈ names)) as [|Hout]; [done|].
  by rewrite lookup_zip_map_None in Hk.
Qed.

(** X4: every complete parameter set a built decorator hands out has
    exactly the extra names of the behavior as its keys, which are the keys
    of the defaults: whatever was supplied, and whatever ran before, no
    parameter of the behavior is left without a value and no other key
    appears. *)
Theorem complete_params_keys wrapper target default_params (h0 : heap) c h1
    actions args kwargs inner h' :
  decorator (Some wrapper) target default_params h0
  = (Ok (Parameterized c), h1) →
  ParameterizedDecorator._partial c args kwargs (run actions h1)
  = (Ok inner, h') →
  ∃ complete,
    h' !! in_complete_params inner = Some complete ∧
    dom complete = list_to_set (extra_names wrapper) ∧
    dom complete = dom default_params.
Proof.
  intros Hbuilt Happ.
  destruct (decorator_Ok_inv _ _ _ _ _ _ Hbuilt) as [Hnd Hdom].
  destruct (decorator_Ok_shape _ _ _ _ _ _ Hbuilt)
    as [(_ & _ & [=])|(_ & -> & [= ->])].
  apply _partial_Ok_inv in Happ as (dp & complete & Hdp & Hm & -> & ->).
  simpl in *.
  rewrite (run_grows _ _ _ default_params) in Hdp
    by apply lookup_insert_eq.
  injection Hdp as <-.
  apply merged_parameters_Ok_inv in Hm as (_ & Hunk & _ & ->); [|done].
  exists (list_to_map (zip (extra_names wrapper) args) ∪ kwargs
          ∪ default_params).
  split; [apply lookup_insert_eq|].
  assert (dom (list_to_map (zip (extra_names wrapper) args) ∪ kwargs
               ∪ default_params) = dom default_params) as Hkeys.
  { rewrite !dom_union_L.
    pose proof (dom_zip_map (extra_names wrapper) args) as Hzip.
    rewrite <-Hdom in Hzip.
    assert (dom kwargs ⊆ dom default_params) as Hkw.
    { intros k Hk. destruct (decide (k ∈ dom default_params)); [done|].
      destruct Hunk. by exists k. }
    set_solver. }
  by rewrite Hkeys.
Qed.

Lemma complete_params_keys_witness :
  decorator (Some behavior_ab) None defaults_ab ∅
  = (Ok (Parameterized partial_ab), {[ 1%positive := defaults_ab ]}) ∧
  ∃ complete,
    ({[ 1%positive := defaults_ab;
        2%positive := {[ "a" := VInt 9; "b" := VInt 2 ]} ]} : heap)
      !! 2%positive = Some complete ∧
    dom complete = list_to_set (extra_names behavior_ab) ∧
    dom complete = dom defaults_ab.
Proof.
  assert (decorator (Some behavior_ab) None defaults_ab ∅
          = (Ok (Parameterized partial_ab), {[ 1%positive := defaults_ab ]}))
    as Hbuilt by (vm_compute; reflexivity).
  assert (ParameterizedDecorator._partial partial_ab [VInt 9] ∅
            (run [] {[ 1%positive := defaults_ab ]})
          = (Ok {| in_wrapper := behavior_ab; in_target := None;
                   in_complete_params := 2%positive |},
             {[ 1%positive := defaults_ab;
                2%positive := {[ "a" := VInt 9; "b" := VInt 2 ]} ]}))
    as Happ by (vm_compute; reflexivity).
  split; [exact Hbuilt|].
  exact (complete_params_keys _ _ _ _ _ _ _ _ _ _ _ Hbuilt Happ).
Defined.

(** X5: the value of each parameter after a successful application.  The
    parameter declared at position [i] has the [i]-th positional argument
    when there is one, else the keyword argument of its name when there is
    one, else its default; any other key has its keyword argument or its
    default. *)
Theorem complete_params_lookup c (h : heap) dp args kwargs inner h' :
  h !! pc_default_params c = Some dp →
  NoDup (pc_expected_names c) →
  ParameterizedDecorator._partial c args kwargs h = (Ok inner, h') →
  ∃ complete,
    h' !! in_complete_params inner = Some complete ∧
    (∀ i name,
       pc_expected_names c !! i = Some name →
       complete !! name
       = match args !! i with
         | Some value => Some value
         | None =>
             match kwargs !! name with
             | Some value => Some value
             | None => dp !! name
             end
         end) ∧
    (∀ k,
       k ∉ pc_expected_names c →
       complete !! k
       = match kwargs !! k with
         | Some value => Some value
         | None => dp !! k
         end).
Proof.
  intros Hdp Hnd Happ.
  apply _partial_Ok_inv in Happ as (dp' & complete & Hdp' & Hm & -> & ->).
  rewrite Hdp in Hdp'. injection Hdp' as <-.
  apply merged_parameters_Ok_inv in Hm as (Hmany & _ & Hboth & ->); [|done].
  eexists. split; [apply lookup_insert_eq|].
  assert (∀ k, (kwargs ∪ dp) !! k
               = match kwargs !! k with
                 | Some value => Some value
                 | None => dp !! k
                 end) as Hkw.
  { intros k. destruct (kwargs !! k) as [v|] eqn:Hk.
    - by apply lookup_union_Some_l.
    - by apply lookup_union_r. }
  split.
  - intros i name Hi. rewrite <-(assoc_L (∪)).
    destruct (args !! i) as [v|] eqn:Hv.
    + apply lookup_union_Some_l. by rewrite (lookup_zip_map _ _ i).
    + rewrite lookup_union_r; [apply Hkw|].
      by rewrite (lookup_zip_map _ _ i).
  - intros k Hk. rewrite <-(assoc_L (∪)).
    rewrite lookup_union_r; [apply Hkw|]. by apply lookup_zip_map_None.
Qed.

Lemma complete_params_lookup_witness :
  ({[ 1%positive := defaults_ab ]} : heap) !! pc_default_params partial_ab
  = Some defaults_ab ∧
  NoDup (pc_expected_names partial_ab) ∧
  ParameterizedDecorator._partial partial_ab [VInt 9] {[ "b" := VInt 7 ]}
    {[ 1%positive := defaults_ab ]}
  = (Ok {| in_wrapper := behavior_ab; in_target := None;
           in_complete_params := 2%positive |},
     {[ 1%positive := defaults_ab;
        2%positive := {[ "a" := VInt 9; "b" := VInt 7 ]} ]}) ∧
  ∃ complete,
    ({[ 1%positive := defaults_ab;
        2%positive := {[ "a" := VInt 9; "b" := VInt 7 ]} ]} : heap)
      !! 2%positive = Some complete ∧
    (∀ i name,
       pc_expected_names partial_ab !! i = Some name →
       complete !! name
       = match [VInt 9] !! i with
         | Some value => Some value
         | None =>
             match ({[ "b" := VInt 7 ]} : dict) !! name with
             | Some value => Some value
             | None => defaults_ab !! name
             end
         end) ∧
    (∀ k,
       k ∉ pc_expected_names partial_ab →
       complete !! k
       = match ({[ "b" := VInt 7 ]} : dict) !! k with
         | Some value => Some value
         | None => defaults_ab !! k
         end).
Proof.
  assert (({[ 1%positive := defaults_ab ]} : heap)
            !! pc_default_params partial_ab = Some defaults_ab) as Hdp
    by reflexivity.
  assert (NoDup (pc_expected_names partial_ab)) as Hnd.
  { apply (bool_decide_unpack (NoDup (pc_expected_names partial_ab))).
    vm_compute. exact I. }
  assert (ParameterizedDecorator._partial partial_ab [VInt 9]
            {[ "b" := VInt 7 ]} {[ 1%positive := defaults_ab ]}
          = (Ok {| in_wrapper := behavior_ab; in_target := None;
                   in_complete_params := 2%positive |},
             {[ 1%positive := defaults_ab;
                2%positive := {[ "a" := VInt 9; "b" := VInt 7 ]} ]}))
    as Happ by (vm_compute; reflexivity).
  split_and!; [exact Hdp|exact Hnd|exact Happ|].
  exact (complete_params_lookup _ _ _ _ _ _ _ Hdp Hnd Happ).
Defined.

(** X6: positional arguments are a shorthand for keywords.  When every
    extra name has a default, applying the decorator to at most as many
    positional arguments as it has extra names, and no keyword, succeeds and
    gives the same complete parameter set as applying it to no positional
    argument and the same values under the keywords of their positions. *)
Theorem positional_is_keyword c (h : heap) dp args :
  h !! pc_default_params c = Some dp →
  NoDup (pc_expected_names c) →
  (∀ name, name ∈ pc_expected_names c → name ∈ dom dp) →
  (length args ≤ length (pc_expected_names c))%nat →
  ∃ complete,
    (complete_parameter_set c args ∅ h).1 = Ok complete ∧
    (complete_parameter_set c []
       (list_to_map (zip (pc_expected_names c) args)) h).1 = Ok complete.
Proof.
  intros Hdp Hnd Hall Hlen.
  rewrite !(complete_parameter_set_merged c h dp) by done.
  exists (list_to_map (zip (pc_expected_names c) args) ∪ dp).
  split.
  - rewrite merged_parameters_ok; try done.
    + by rewrite (right_id_L ∅ (∪)).
    + unfold too_many_positional. lia.
    + intros (k & Hk & _). by rewrite dom_empty_L in Hk.
    + intros (i & name & _ & _ & Hk). by rewrite dom_empty_L in Hk.
  - rewrite merged_parameters_ok; try done.
    + replace (zip (pc_expected_names c) ([] : list pyval))
        with ([] : list (string * pyval))
        by by destruct (pc_expected_names c).
      simpl. by rewrite (left_id_L ∅ (∪)).
    + unfold too_many_positional. simpl. lia.
    + intros (k & Hk & Hout). apply Hout, Hall.
      apply dom_zip_map in Hk. by apply elem_of_list_to_set in Hk.
    + intros (i & name & Hi & _). simpl in Hi. lia.
Qed.

Lemma positional_is_keyword_witness :
  ({[ 1%positive := defaults_ab ]} : heap) !! pc_default_params partial_ab
  = Some defaults_ab ∧
  ∃ complete,
    (complete_parameter_set partial_ab [VInt 9] ∅
       {[ 1%positive := defaults_ab ]}).1 = Ok complete ∧
    (complete_parameter_set partial_ab []
       (list_to_map (zip (pc_expected_names partial_ab) [VInt 9]))
       {[ 1%positive := defaults_ab ]}).1 = Ok complete.
Proof.
  assert (({[ 1%positive := defaults_ab ]} : heap)
            !! pc_default_params partial_ab = Some defaults_ab) as Hdp
    by reflexivity.
  split; [exact Hdp|].
  apply (positional_is_keyword partial_ab _ defaults_ab [VInt 9] Hdp).
  - apply (bool_decide_unpack (NoDup (pc_expected_names partial_ab))).
    vm_compute. exact I.
  - apply Forall_forall.
    apply (bool_decide_unpack
             (Forall (λ name, name ∈ dom defaults_ab)
                (pc_expected_names partial_ab))).
    vm_compute. exact I.
  - simpl. lia.
Defined.

(** ** What an application never raises *)

Lemma bind_positional_in_range wrapper expected_names i args (kwargs : dict) :
  (i + length args ≤ length expected_names)%nat →
  bind_positional wrapper expected_names i args kwargs ≠ Raise IndexError.
Proof.
  revert i kwargs.
  induction args as [|arg rest IH]; intros i kwargs Hlen; simpl in *;
    [done|].
  destruct (lookup_lt_is_Some_2 expected_names i) as [name ->]; [lia|].
  case_decide.
  - unfold getattr. by destruct (obj_attrs wrapper !! "__name__").
  - apply IH. lia.
Qed.

(** X7: the subscript [expected_names[i]] of the loop over the positional
    arguments is always in range.  For every decorator, every argument list,
    every keyword set and every store, an application does not raise
    [IndexError]: the test on the number of positional arguments comes
    first. *)
Theorem application_never_raises_IndexError c args kwargs (h : heap) :
  (ParameterizedDecorator._partial c args kwargs h).1 ≠ Raise IndexError.
Proof.
  unfold ParameterizedDecorator._partial.
  assert (∀ (f : pyval → exn) (h0 : heap),
            (∀ v, f v ≠ IndexError) →
            ((wrapper_name ← lift (getattr (pc_wrapper c) "__name__");
              raise (f wrapper_name)) h0 : result InnerWrapper * heap).1
            ≠ Raise IndexError) as Hmessage.
  { intros f h0 Hf. unfold_monad. unfold getattr.
    destruct (obj_attrs (pc_wrapper c) !! "__name__"); simpl; [|done].
    intros [= Heq]. by apply Hf in Heq. }
  case_decide as Hmany.
  { by apply Hmessage. }
  unfold mbind at 1. unfold M_bind, load.
  destruct (h !! pc_default_params c) as [dp|]; [|done].
  case_decide.
  { by apply Hmessage. }
  unfold_monad.
  pose proof (bind_positional_in_range (pc_wrapper c) (pc_expected_names c)
                0 args kwargs) as Hrange.
  destruct (bind_positional _ _ _ _ _) as [supplied|e]; simpl.
  - by rewrite lookup_insert_eq.
  - intros [= ->]. apply Hrange; [simpl; lia|done].
Qed.

(** ** More on the propagation of metadata *)

Lemma WrapperConstruct_eq (w1 w2 : WrapperConstruct) :
  fw_wrapped w1 = fw_wrapped w2 →
  fw_wrapper w1 = fw_wrapper w2 →
  fw_params w1 = fw_params w2 →
  (∀ attr, fw_attrs w1 !! attr = fw_attrs w2 !! attr) →
  w1 = w2.
Proof.
  destruct w1, w2. simpl. intros -> -> -> Hattrs. f_equal.
  by apply map_eq.
Qed.

Lemma _update_adapter_lookup construct target attr :
  fw_attrs (_update_adapter construct target) !! attr
  = if decide (attr ∈ ADAPTER_ATTRS) then
      match obj_attrs target !! attr with
      | Some value => Some value
      | None => fw_attrs construct !! attr
      end
    else fw_attrs construct !! attr.
Proof.
  destruct (_update_adapter_fields construct target) as (_ & _ & _ & ->).
  apply copy_attrs_lookup.
Qed.

(** X8: propagating the metadata of a target a second time changes
    nothing: [_update_adapter] is idempotent. *)
Theorem update_adapter_idempotent construct target :
  _update_adapter (_update_adapter construct target) target
  = _update_adapter construct target.
Proof.
  destruct (_update_adapter_fields (_update_adapter construct target) target)
    as (Hwrapped & Hwrapper & Hparams & _).
  apply WrapperConstruct_eq; try done.
  intros attr. rewrite !_update_adapter_lookup.
  case_decide; [|done]. by destruct (obj_attrs target !! attr).
Qed.

(** X9: a target that has none of [__module__], [__name__] and
    [__qualname__] donates nothing: every [AttributeError] is swallowed and
    [_update_adapter] returns the construct exactly as it received it. *)
Theorem update_adapter_without_attributes construct target :
  (∀ attr, attr ∈ ADAPTER_ATTRS → obj_attrs target !! attr = None) →
  _update_adapter construct target = construct.
Proof.
  intros Hnone.
  destruct (_update_adapter_fields construct target)
    as (Hwrapped & Hwrapper & Hparams & _).
  apply WrapperConstruct_eq; try done.
  intros attr. rewrite _update_adapter_lookup.
  case_decide; [|done]. by rewrite Hnone.
Qed.

Lemma update_adapter_without_attributes_witness :
  _update_adapter (FunctionWrapper function behavior_ab None)
    {| obj_attrs := {[ "__doc__" := VStr "a callable object" ]};
       obj_dict := ∅; obj_args := []; obj_true := true |}
  = FunctionWrapper function behavior_ab None.
Proof.
  apply update_adapter_without_attributes.
  apply Forall_forall.
  apply (bool_decide_unpack
           (Forall (λ attr,
                      obj_attrs
                        {| obj_attrs :=
                             {[ "__doc__" := VStr "a callable object" ]};
                           obj_dict := ∅; obj_args := [];
                           obj_true := true |} !! attr = None)
              ADAPTER_ATTRS)).
  vm_compute. exact I.
Defined.

(** ** Building, once more *)

(** X10: [decorator] builds a decorator for a behavior exactly when the
    extra names of the behavior are unique and are, as a set, the keys of
    the defaults; in every other case it raises. *)
Theorem decorator_builds_iff wrapper target default_params (h : heap) :
  (∃ d h', decorator (Some wrapper) target default_params h = (Ok d, h')) ↔
  NoDup (extra_names wrapper) ∧
  dom default_params = list_to_set (extra_names wrapper).
Proof.
  split.
  - intros (d & h' & Hbuilt). by eapply decorator_Ok_inv.
  - intros [Hnd Hdom].
    rewrite decorator_validated; [|done|].
    2:{ intros n Hn. rewrite Hdom. by apply elem_of_list_to_set. }
    cbn zeta. rewrite decide_False.
    2:{ intros Hne. apply Hne. rewrite Hdom. set_solver. }
    case_decide; by eexists _, _.
Qed.

(** ** [adapter] and the decorator syntax *)

(** X11: [adapter(target)] raises nothing and leaves the store as it was.
    It returns the direct decorator of the behavior [wrapper], with the
    target recorded; a function that decorator is applied to is wrapped
    without a parameter set.  When the target is true the construct reports
    the target's [__module__], [__name__] and [__qualname__] where the
    target has them and the attributes of the function everywhere else;
    when the target is false, [if target:] fails and the construct reports
    the attributes of the function only. *)
Theorem adapter_builds_direct target (h : heap) :
  ∃ c,
    adapter target h = (Ok (AppliedBuilder (Direct c)), h) ∧
    wc_wrapper c = adapter_wrapper ∧
    wc_target c = Some target ∧
    ∀ func,
      let construct := DirectDecorator._wrapper c func in
      fw_wrapped construct = func ∧
      fw_wrapper construct = adapter_wrapper ∧
      fw_params construct = None ∧
      ∀ attr,
        fw_attrs construct !! attr
        = if obj_true target then
            if decide (attr ∈ ADAPTER_ATTRS) then
              match obj_attrs target !! attr with
              | Some value => Some value
              | None => obj_attrs func !! attr
              end
            else obj_attrs func !! attr
          else obj_attrs func !! attr.
Proof.
  assert (extra_names adapter_wrapper = []) as Hnil by reflexivity.
  eexists. split_and!.
  - assert (adapter target h
            = match decorator (Some adapter_wrapper) (Some target) (∅ ∪ ∅) h
              with
              | (Ok built, h') => (Ok (AppliedBuilder built), h')
              | (Raise e, h') => (Raise e, h')
              end) as -> by reflexivity.
    rewrite decorator_validated; rewrite Hnil.
    + cbn zeta. rewrite decide_False.
      * rewrite decide_True by done. reflexivity.
      * intros Hne. apply Hne. set_solver.
    + constructor.
    + intros n Hn. by apply elem_of_nil in Hn.
  - done.
  - done.
  - intros func construct. subst construct.
    unfold DirectDecorator._wrapper. simpl.
    destruct (obj_true target); [|done].
    destruct (_update_adapter_fields
                (FunctionWrapper func adapter_wrapper None) target)
      as (-> & -> & -> & _).
    split_and!; try done.
    intros attr. by rewrite _update_adapter_lookup.
Qed.

(** X12: a parameterized decorator written above a function without the
    call, [@decorate] for [@decorate()], raises nothing.  [_partial] takes
    the function for its first positional argument: what comes back is not
    a wrapped function but an inner decorator, whose complete parameter set
    is the defaults with the function as the value of the first extra
    parameter. *)
Theorem bare_application_binds_function c (h : heap) dp name rest func :
  h !! pc_default_params c = Some dp →
  pc_expected_names c = name :: rest →
  ∃ inner h',
    apply_decorator (Parameterized c) func h = (Ok (AppliedPartial inner), h')
    ∧ h' !! in_complete_params inner
      = Some (<[name := function_value func]> dp)
    ∧ h' !! pc_default_params c = Some dp.
Proof.
  intros Hdp Hnames.
  assert (merged_parameters c dp [function_value func] ∅
          = Ok (<[name := function_value func]> dp)) as Hm.
  { unfold merged_parameters. rewrite Hnames.
    rewrite decide_False by (simpl; lia).
    rewrite decide_False.
    2:{ intros Hne. apply Hne. apply unexpected_keywords_nil.
        intros k Hk. by rewrite dom_empty_L in Hk. }
    simpl. rewrite decide_False by by rewrite dom_empty_L.
    unfold mbind, result_bind. f_equal.
    by rewrite <-insert_union_l, (left_id_L ∅ (∪)). }
  eexists _, _. split_and!.
  - unfold apply_decorator. unfold mbind at 1. unfold M_bind.
    rewrite (_partial_unfold c h dp) by done. cbn zeta. rewrite Hm.
    reflexivity.
  - apply lookup_insert_eq.
  - rewrite lookup_insert_ne; [done|].
    apply fresh_loc_allocated. by eexists.
Qed.

Lemma bare_application_binds_function_witness :
  ({[ 1%positive := defaults_ab ]} : heap) !! pc_default_params partial_ab
  = Some defaults_ab ∧
  pc_expected_names partial_ab = "a" :: ["b"] ∧
  ∃ inner h',
    apply_decorator (Parameterized partial_ab) function
      {[ 1%positive := defaults_ab ]} = (Ok (AppliedPartial inner), h')
    ∧ h' !! in_complete_params inner
      = Some (<["a" := function_value function]> defaults_ab)
    ∧ h' !! pc_default_params partial_ab = Some defaults_ab.
Proof.
  split_and!; [reflexivity|reflexivity|].
  apply (bare_application_binds_function partial_ab
           {[ 1%positive := defaults_ab ]} defaults_ab "a" ["b"] function);
    reflexivity.
Defined.
